(** * pkg/awsmod/batch.go: the batched S3 object deletion engine

    A shallow embedding of [BatchDelete.Delete], [deleteBatch], [hasParity],
    the two candidate iterators and [NewBatchDeleteWithClient], followed by
    the properties of the batching loop.

    Conventions of the embedding:
    - a Go [*string] is an [option string] ([None] is the nil pointer);
    - a Go [int] is a [Z];
    - the remote calls and the [After] closures are the only effects; every
      one of them is recorded, with its answer, in a chronological [Trace],
      and the answer of a call may depend on the trace so far;
    - [for iter.Next()] is run with fuel, because an implementation of the
      iterator interface need not ever return false. *)

From Stdlib Require Import String.
From Stdlib Require Import List ZArith Bool Arith Lia.
Import ListNotations.

Local Open Scope string_scope.
Local Open Scope list_scope.

#[local] Set Warnings "-register-all".

(** ** Errors *)

(** Go [error] values.  [AwsErr] is [awserr.New(code, message, origErr)];
    every other error is opaque to this package. *)
Inductive error : Type :=
| ErrOpaque (what : string)
| AwsErr (code message : string) (origErr : option error).

(** [type Error struct { OrigErr error; Bucket *string; Key *string }] *)
Record Error : Type := mkError {
  OrigErr : option error;
  err_Bucket : option string;
  err_Key : option string
}.

Definition newError (err : option error) (bucket key : option string) : Error :=
  mkError err bucket key.

(** [type BatchError struct { Errors Errors; code string; message string }] *)
Record BatchError : Type := mkBatchError {
  Errors : list Error;
  code : string;
  message : string
}.

Definition NewBatchError (code message : string) (err : list Error) : BatchError :=
  mkBatchError err code message.

(** ** The S3 request and response shapes the engine touches *)

(** [s3.DeleteObjectInput], restricted to the fields read by this package. *)
Record DeleteObjectInput : Type := mkDeleteObjectInput {
  Bucket : option string;
  Key : option string;
  VersionId : option string;
  MFA : option string;
  RequestPayer : string
}.

(** [s3types.ObjectIdentifier] *)
Record ObjectIdentifier : Type := mkObjectIdentifier {
  oi_Key : option string;
  oi_VersionId : option string
}.

(** [s3.DeleteObjectsInput]; [Delete_Objects] is [input.Delete.Objects]. *)
Record DeleteObjectsInput : Type := mkDeleteObjectsInput {
  in_Bucket : option string;
  in_MFA : option string;
  in_RequestPayer : string;
  Delete_Objects : list ObjectIdentifier
}.

(** [s3types.Error], one per key the service could not delete. *)
Record S3Error : Type := mkS3Error {
  e_Key : option string;
  e_Code : option string;
  e_Message : option string
}.

(** [s3.DeleteObjectsOutput] *)
Record DeleteObjectsOutput : Type := mkDeleteObjectsOutput {
  out_Errors : list S3Error
}.

(** The result pair [(result, err)] of [Client.DeleteObjects]. *)
Inductive CallResult : Type :=
| CallOk (result : DeleteObjectsOutput)
| CallErr (err : error).

(** ** Effects: the trace of remote calls and hook runs *)

Inductive Event : Type :=
| EvDeleteObjects (input : DeleteObjectsInput) (res : CallResult)
| EvAfter (object : DeleteObjectInput) (res : option error).

Definition Trace : Type := list Event.

(** [type BatchDeleteObject struct { Object *s3.DeleteObjectInput; After func() error }].
    [Object] is taken non-nil (a nil one panics at its first use in [Delete]);
    [After] is [None] for a nil func, and otherwise answers from the history. *)
Record BatchDeleteObject : Type := mkBatchDeleteObject {
  Object : DeleteObjectInput;
  After : option (Trace -> option error)
}.

(** [type BatchDelete struct { Client DeleteObjectsAPIClient; BatchSize int }] *)
Record BatchDelete : Type := mkBatchDelete {
  Client : Trace -> DeleteObjectsInput -> CallResult;
  BatchSize : Z
}.

Definition DefaultBatchSize : Z := 1000.

Definition NewBatchDeleteWithClient
    (s3client : Trace -> DeleteObjectsInput -> CallResult) (batchSize : Z)
    (options : list (BatchDelete -> BatchDelete)) : BatchDelete :=
  let svc := mkBatchDelete s3client DefaultBatchSize in
  let svc := if negb (batchSize =? -1)%Z
             then mkBatchDelete (Client svc) batchSize else svc in
  fold_left (fun svc opt => opt svc) options svc.

(** ** Parity *)

Definition initDeleteObjectsInput (o : DeleteObjectInput) : DeleteObjectsInput :=
  mkDeleteObjectsInput (Bucket o) (MFA o) (RequestPayer o) [].

(** Comparison of two [*string]: the pointed-to values when both are set,
    the pointers themselves (so: both nil) otherwise. *)
Definition ptr_differs (p q : option string) : bool :=
  match p, q with
  | Some a, Some b => negb (String.eqb a b)
  | None, None => false
  | _, _ => true
  end.

Definition payer_differs (a b : string) : bool :=
  if negb (String.eqb a "") && negb (String.eqb b "")
  then negb (String.eqb a b)
  else negb (String.eqb a b).

Definition hasParity (o1 : DeleteObjectsInput) (o2 : BatchDeleteObject) : bool :=
  if ptr_differs (in_Bucket o1) (Bucket (Object o2)) then false
  else if ptr_differs (in_MFA o1) (MFA (Object o2)) then false
  else if payer_differs (in_RequestPayer o1) (RequestPayer (Object o2)) then false
  else true.

(** ** Executing one batch *)

Definition ErrDeleteBatchFailCode : string := "DeleteBatchError".
Definition errDefaultDeleteBatchMessage : string := "failed to delete".

(** The errors recorded for the answer of one [DeleteObjects] call. *)
Definition callErrors (input : DeleteObjectsInput) (res : CallResult) : list Error :=
  match res with
  | CallErr err =>
      map (fun oi => newError (Some err) (in_Bucket input) (oi_Key oi))
          (Delete_Objects input)
  | CallOk result =>
      map (fun e =>
             let msg := match e_Message e with
                        | Some m => m
                        | None => errDefaultDeleteBatchMessage
                        end in
             let code := match e_Code e with
                         | Some c => c
                         | None => ErrDeleteBatchFailCode
                         end in
             newError (Some (AwsErr code msg None)) (in_Bucket input) (e_Key e))
          (out_Errors result)
  end.

(** [for _, object := range objects { ... object.After() ... }] *)
Fixpoint runAfter (objects : list BatchDeleteObject) (errs : list Error) (t : Trace)
  : list Error * Trace :=
  match objects with
  | [] => (errs, t)
  | object :: rest =>
      match After object with
      | None => runAfter rest errs t
      | Some hook =>
          let r := hook t in
          let t' := t ++ [EvAfter (Object object) r] in
          match r with
          | Some err =>
              runAfter rest
                (errs ++ [newError (Some err) (Bucket (Object object))
                                   (Key (Object object))]) t'
          | None => runAfter rest errs t'
          end
      end
  end.

Definition deleteBatch (d : BatchDelete) (input : DeleteObjectsInput)
    (objects : list BatchDeleteObject) (t : Trace) : list Error * Trace :=
  let res := Client d t input in
  runAfter objects (callErrors input res) (t ++ [EvDeleteObjects input res]).

(** ** The batching loop of [BatchDelete.Delete] *)

(** The variables of [Delete] that live across loop iterations, and the
    trace of effects so far.  [input = None] is the nil [*DeleteObjectsInput]. *)
Record DeleteState : Type := mkDeleteState {
  errs : list Error;
  objects : list BatchDeleteObject;
  input : option DeleteObjectsInput;
  trace : Trace
}.

Definition applyOpts (opts : list (DeleteObjectsInput -> DeleteObjectsInput))
    (i : DeleteObjectsInput) : DeleteObjectsInput :=
  fold_left (fun i opt => opt i) opts i.

(** [input.Delete.Objects = append(input.Delete.Objects, ObjectIdentifier{Key, VersionId})] *)
Definition appendObject (i : DeleteObjectsInput) (o : DeleteObjectInput)
  : DeleteObjectsInput :=
  mkDeleteObjectsInput (in_Bucket i) (in_MFA i) (in_RequestPayer i)
    (Delete_Objects i ++ [mkObjectIdentifier (Key o) (VersionId o)]).

(** One iteration of [for iter.Next() { o := iter.DeleteObject(); ... }]. *)
Definition loopBody (d : BatchDelete)
    (opts : list (DeleteObjectsInput -> DeleteObjectsInput))
    (st : DeleteState) (o : BatchDeleteObject) : DeleteState :=
  let i := match input st with
           | None => initDeleteObjectsInput (Object o)
           | Some i => i
           end in
  let i := applyOpts opts i in
  let parity := hasParity i o in
  let i := if parity then appendObject i (Object o) else i in
  let objs := if parity then objects st ++ [o] else objects st in
  if (Z.of_nat (length (Delete_Objects i)) =? BatchSize d)%Z || negb parity then
    let '(err, t) := deleteBatch d i objs (trace st) in
    let es := errs st ++ err in
    if negb parity then
      mkDeleteState es [o]
        (Some (appendObject (applyOpts opts (initDeleteObjectsInput (Object o)))
                            (Object o)))
        t
    else mkDeleteState es [] None t
  else mkDeleteState (errs st) objs (Some i) (trace st).

(** Everything after the loop: the iterator's error, the last partial batch,
    and the returned value with the final trace. *)
Definition afterLoop (d : BatchDelete) (st : DeleteState) (iterErr : option error)
  : option BatchError * Trace :=
  let es := match iterErr with
            | Some e => errs st ++ [newError (Some e) None None]
            | None => errs st
            end in
  let '(es, t) :=
    match input st with
    | Some i =>
        if (0 <? length (Delete_Objects i))%nat then
          let '(err, t) := deleteBatch d i (objects st) (trace st) in
          (es ++ err, t)
        else (es, trace st)
    | None => (es, trace st)
    end in
  (if (0 <? length es)%nat
   then Some (NewBatchError "BatchedDeleteIncomplete"
                            "some objects have failed to be deleted." es)
   else None,
   t).

(** ** Iterators *)

(** [type BatchDeleteIterator interface { Next() bool; Err() error;
    DeleteObject() BatchDeleteObject }], over the iterator's own state.
    [DeleteObject] is [None] where the implementation panics. *)
Class BatchDeleteIterator (I : Type) : Type := {
  Next : I -> I * bool;
  Err : I -> option error;
  DeleteObject : I -> option BatchDeleteObject
}.

Inductive Outcome (A : Type) : Type :=
| Returned (a : A)
| Panicked
| OutOfFuel.
Arguments Returned {A} a.
Arguments Panicked {A}.
Arguments OutOfFuel {A}.

Definition initialState : DeleteState := mkDeleteState [] [] None [].

Fixpoint DeleteLoop {I : Type} `{BatchDeleteIterator I} (fuel : nat)
    (d : BatchDelete) (opts : list (DeleteObjectsInput -> DeleteObjectsInput))
    (iter : I) (st : DeleteState) : Outcome (I * DeleteState) :=
  match fuel with
  | O => OutOfFuel
  | S fuel' =>
      let '(iter', more) := Next iter in
      if more then
        match DeleteObject iter' with
        | None => Panicked
        | Some o => DeleteLoop fuel' d opts iter' (loopBody d opts st o)
        end
      else Returned (iter', st)
  end.

(** [func (d *BatchDelete) Delete(ctx, iter, opts...) error], with its trace. *)
Definition Delete {I : Type} `{BatchDeleteIterator I} (fuel : nat)
    (d : BatchDelete) (iter : I)
    (opts : list (DeleteObjectsInput -> DeleteObjectsInput))
  : Outcome (option BatchError * Trace) :=
  match DeleteLoop fuel d opts iter initialState with
  | Returned (iter', st) => Returned (afterLoop d st (Err iter'))
  | Panicked => Panicked
  | OutOfFuel => OutOfFuel
  end.

(** *** The static iterator *)

(** Go's [int] is 64 bits wide here; [index++] wraps. *)
Definition int_wrap (z : Z) : Z := ((z + 2 ^ 63) mod 2 ^ 64 - 2 ^ 63)%Z.

Record DeleteObjectsIterator : Type := mkDeleteObjectsIterator {
  Objects : list BatchDeleteObject;
  index : Z;
  inc : bool
}.

Definition DeleteObjectsIterator_Next (iter : DeleteObjectsIterator)
  : DeleteObjectsIterator * bool :=
  let iter' := if inc iter
               then mkDeleteObjectsIterator (Objects iter) (int_wrap (index iter + 1)) true
               else mkDeleteObjectsIterator (Objects iter) (index iter) true in
  (iter', (index iter' <? Z.of_nat (length (Objects iter')))%Z).

Definition DeleteObjectsIterator_DeleteObject (iter : DeleteObjectsIterator)
  : option BatchDeleteObject :=
  if (index iter <? 0)%Z then None
  else nth_error (Objects iter) (Z.to_nat (index iter)).

#[export] Instance DeleteObjectsIterator_iter : BatchDeleteIterator DeleteObjectsIterator := {
  Next := DeleteObjectsIterator_Next;
  Err := fun _ => None;
  DeleteObject := DeleteObjectsIterator_DeleteObject
}.

(** *** The paginated iterator *)

(** [s3types.Object], of which only [Key] is read. *)
Record S3Object : Type := mkS3Object { obj_Key : option string }.

(** [s3.ListObjectsV2Output], of which only [Contents] is read. *)
Record ListObjectsV2Output : Type := mkListObjectsV2Output {
  Contents : list S3Object
}.

(** Modelled from the spec: [s3.ListObjectsV2Paginator] belongs to the AWS
    SDK and is not part of this repository.  The remote listing is called
    page after page until no continuation token is left; the paginator is
    the sequence of answers the listing has still to give, each a page or a
    failure. *)
Record ListObjectsV2Paginator : Type := mkPaginator {
  pending : list (ListObjectsV2Output + error)
}.

Definition HasMorePages (p : ListObjectsV2Paginator) : bool :=
  match pending p with
  | [] => false
  | _ :: _ => true
  end.

Definition NextPage (p : ListObjectsV2Paginator)
  : ListObjectsV2Paginator * (ListObjectsV2Output + error) :=
  match pending p with
  | [] => (p, inr (ErrOpaque "no more pages available"))
  | r :: rest => (mkPaginator rest, r)
  end.

Record DeleteListIterator : Type := mkDeleteListIterator {
  it_Bucket : option string;
  Paginator : ListObjectsV2Paginator;
  it_objects : list S3Object;
  it_err : option error
}.

Definition DeleteListIterator_Next (iter : DeleteListIterator)
  : DeleteListIterator * bool :=
  let objs := if (0 <? length (it_objects iter))%nat
              then tl (it_objects iter) else it_objects iter in
  if (0 <? length (it_objects iter))%nat && (0 <? length objs)%nat then
    (mkDeleteListIterator (it_Bucket iter) (Paginator iter) objs (it_err iter), true)
  else if negb (HasMorePages (Paginator iter)) then
    (mkDeleteListIterator (it_Bucket iter) (Paginator iter) objs (it_err iter), false)
  else
    let '(p, r) := NextPage (Paginator iter) in
    match r with
    | inr err => (mkDeleteListIterator (it_Bucket iter) p objs (Some err), false)
    | inl page =>
        (mkDeleteListIterator (it_Bucket iter) p (Contents page) (it_err iter),
         (0 <? length (Contents page))%nat)
    end.

Definition DeleteListIterator_DeleteObject (iter : DeleteListIterator)
  : option BatchDeleteObject :=
  match it_objects iter with
  | [] => None
  | o :: _ =>
      Some (mkBatchDeleteObject
              (mkDeleteObjectInput (it_Bucket iter) (obj_Key o) None None "")
              None)
  end.

#[export] Instance DeleteListIterator_iter : BatchDeleteIterator DeleteListIterator := {
  Next := DeleteListIterator_Next;
  Err := it_err;
  DeleteObject := DeleteListIterator_DeleteObject
}.

(** ** What an iterator yields *)

(** [yields iter l iter']: driving [iter] with [Next] produces the candidates
    [l], in order, and then stops in state [iter']. *)
Inductive yields {I : Type} `{BatchDeleteIterator I}
  : I -> list BatchDeleteObject -> I -> Prop :=
| yields_stop : forall iter iter',
    Next iter = (iter', false) -> yields iter [] iter'
| yields_more : forall iter iter1 o l iter',
    Next iter = (iter1, true) ->
    DeleteObject iter1 = Some o ->
    yields iter1 l iter' ->
    yields iter (o :: l) iter'.

(** [Delete] on the candidates [l] of an iterator that stops with [iterErr]. *)
Definition DeleteList (d : BatchDelete)
    (opts : list (DeleteObjectsInput -> DeleteObjectsInput))
    (l : list BatchDeleteObject) (iterErr : option error)
  : option BatchError * Trace :=
  afterLoop d (fold_left (loopBody d opts) l initialState) iterErr.

(** ** Reading a trace *)

Definition callOf (e : Event) : list DeleteObjectsInput :=
  match e with
  | EvDeleteObjects i _ => [i]
  | EvAfter _ _ => []
  end.

(** The inputs of the [DeleteObjects] calls of a trace, in order. *)
Definition calls (t : Trace) : list DeleteObjectsInput := flat_map callOf t.

(** How many objects each [DeleteObjects] call carried. *)
Definition callSizes (t : Trace) : list nat :=
  map (fun i => length (Delete_Objects i)) (calls t).

Definition hookOf (e : Event) : list DeleteObjectInput :=
  match e with
  | EvDeleteObjects _ _ => []
  | EvAfter o _ => [o]
  end.

(** The candidates whose [After] hook ran, in order. *)
Definition hookRuns (t : Trace) : list DeleteObjectInput := flat_map hookOf t.

(** The errors an event accounts for: those of a call's answer, or the
    failure of a hook (with the bucket and key of the hook's candidate). *)
Definition eventErrors (e : Event) : list Error :=
  match e with
  | EvDeleteObjects i res => callErrors i res
  | EvAfter o (Some err) => [newError (Some err) (Bucket o) (Key o)]
  | EvAfter _ None => []
  end.

Definition hasHook (o : BatchDeleteObject) : bool :=
  match After o with
  | Some _ => true
  | None => false
  end.

(** [hookEvents t os evs]: [evs] are the events of running the hooks of the
    candidates [os], one after the other and each exactly once, from the
    trace [t] on; the answer recorded for a hook is the one it gives to the
    trace up to its own run. *)
Inductive hookEvents : Trace -> list BatchDeleteObject -> Trace -> Prop :=
| hookEvents_nil : forall t, hookEvents t [] []
| hookEvents_cons : forall t o hook os evs,
    After o = Some hook ->
    hookEvents (t ++ [EvAfter (Object o) (hook t)]) os evs ->
    hookEvents t (o :: os) (EvAfter (Object o) (hook t) :: evs).

(** ** Batches as groups of candidates *)

Definition identOf (o : BatchDeleteObject) : ObjectIdentifier :=
  mkObjectIdentifier (Key (Object o)) (VersionId (Object o)).

(** The request built for a group: its first candidate gives the bucket, MFA
    and request payer, every candidate gives one identifier. *)
Definition groupInput (g : list BatchDeleteObject) : DeleteObjectsInput :=
  match g with
  | [] => mkDeleteObjectsInput None None "" []
  | o :: _ =>
      mkDeleteObjectsInput (Bucket (Object o)) (MFA (Object o))
        (RequestPayer (Object o)) (map identOf g)
  end.

(** Whether [o] may join the open group [g]. *)
Definition joins (g : list BatchDeleteObject) (o : BatchDeleteObject) : bool :=
  match g with
  | [] => true
  | _ :: _ => hasParity (groupInput g) o
  end.

(** The groups the loop closes, from the open group [g] over the candidates
    still to come; the last one is closed by the flush after the loop. *)
Fixpoint batchesFrom (B : Z) (g l : list BatchDeleteObject)
  : list (list BatchDeleteObject) :=
  match l with
  | [] => match g with
          | [] => []
          | _ :: _ => [g]
          end
  | o :: l' =>
      if joins g o then
        if (Z.of_nat (length (g ++ [o])) =? B)%Z
        then (g ++ [o]) :: batchesFrom B [] l'
        else batchesFrom B (g ++ [o]) l'
      else g :: batchesFrom B [o] l'
  end.

(** The loop state is coherent when the open request is the one of the open
    group of candidates. *)
Definition coherent (st : DeleteState) : Prop :=
  input st = match objects st with
             | [] => None
             | _ :: _ => Some (groupInput (objects st))
             end.

Definition sameFlags (o1 o2 : BatchDeleteObject) : Prop :=
  Bucket (Object o1) = Bucket (Object o2) /\
  MFA (Object o1) = MFA (Object o2) /\
  RequestPayer (Object o1) = RequestPayer (Object o2).

(** All candidates share bucket, MFA and request payer. *)
Definition uniform (l : list BatchDeleteObject) : Prop :=
  forall o1 o2, In o1 l -> In o2 l -> sameFlags o1 o2.

Definition errorsOf (ret : option BatchError) : list Error :=
  match ret with
  | None => []
  | Some b => Errors b
  end.

Definition iterError (e : option error) : list Error :=
  match e with
  | Some err => [newError (Some err) None None]
  | None => []
  end.

(** Closing the group [g]: one [deleteBatch], then no open request. *)
Definition flush (d : BatchDelete) (g : list BatchDeleteObject) (st : DeleteState)
  : DeleteState :=
  let '(err, t) := deleteBatch d (groupInput g) g (trace st) in
  mkDeleteState (errs st ++ err) [] None t.

(** Leaving the group [g] open. *)
Definition openWith (g : list BatchDeleteObject) (st : DeleteState) : DeleteState :=
  mkDeleteState (errs st) g (Some (groupInput g)) (trace st).

(** The sizes of the calls that [n] candidates of one parity make with
    batch size [b]: full batches, then the remainder if there is one. *)
Definition chunkSizes (b n : nat) : list nat :=
  repeat b (n / b) ++ (if (n mod b =? 0)%nat then [] else [n mod b]).

(** The value [Delete] returns for the collected errors [es]. *)
Definition resultOf (es : list Error) : option BatchError :=
  match es with
  | [] => None
  | _ :: _ => Some (NewBatchError "BatchedDeleteIncomplete"
                                  "some objects have failed to be deleted." es)
  end.

(** A well-formed batch for batch size [B]: not empty, at most [B]
    candidates, each in parity with the batch's request. *)
Definition goodGroup (B : Z) (g : list BatchDeleteObject) : Prop :=
  g <> [] /\
  (Z.of_nat (length g) <= B)%Z /\
  forall o, In o g -> hasParity (groupInput g) o = true.

(** ** Sample data *)

(** A candidate without a hook. *)
Definition plain (bucket key : string) : BatchDeleteObject :=
  mkBatchDeleteObject (mkDeleteObjectInput (Some bucket) (Some key) None None "") None.

(** A candidate whose hook always answers [r]. *)
Definition hooked (bucket key : string) (r : option error) : BatchDeleteObject :=
  mkBatchDeleteObject (mkDeleteObjectInput (Some bucket) (Some key) None None "")
                      (Some (fun _ => r)).

(** A client for which every call succeeds with no per-key error. *)
Definition okClient : Trace -> DeleteObjectsInput -> CallResult :=
  fun _ _ => CallOk (mkDeleteObjectsOutput []).

(** A client for which every call fails with [err]. *)
Definition failingClient (err : error) : Trace -> DeleteObjectsInput -> CallResult :=
  fun _ _ => CallErr err.

(** A fresh static iterator, as [&DeleteObjectsIterator{Objects: l}]. *)
Definition staticIterator (l : list BatchDeleteObject) : DeleteObjectsIterator :=
  mkDeleteObjectsIterator l 0 false.


(** A client whose first call fails and whose later calls succeed. *)
Definition failFirstClient : Trace -> DeleteObjectsInput -> CallResult :=
  fun t _ =>
    match calls t with
    | [] => CallErr (ErrOpaque "timeout")
    | _ :: _ => CallOk (mkDeleteObjectsOutput [])
    end.


(** A paginated iterator over bucket A whose listing gives one page of three
    keys and then fails. *)
Definition brokenListing : DeleteListIterator :=
  mkDeleteListIterator (Some "A")
    (mkPaginator
       [inl (mkListObjectsV2Output
               [mkS3Object (Some "k1"); mkS3Object (Some "k2"); mkS3Object (Some "k3")]);
        inr (ErrOpaque "listing failed")])
    [] None.

(** The candidate [DeleteListIterator.DeleteObject] builds for a listed object. *)
Definition listedCandidate (bucket : option string) (o : S3Object) : BatchDeleteObject :=
  mkBatchDeleteObject (mkDeleteObjectInput bucket (obj_Key o) None None "") None.

(** The answers of the listing at which the paginated iterator stops: none
    left, a failure, or a page without contents. *)
Definition stopsAt (answers : list (ListObjectsV2Output + error)) : Prop :=
  match answers with
  | [] => True
  | inr _ :: _ => True
  | inl page :: _ => Contents page = []
  end.

(** The iterator's error once it has stopped at [answers]. *)
Definition errAfter (err : option error)
    (answers : list (ListObjectsV2Output + error)) : option error :=
  match answers with
  | inr e :: _ => Some e
  | _ => err
  end.

(** A listing of bucket A in three pages, the middle one without contents. *)
Definition gappedListing : DeleteListIterator :=
  mkDeleteListIterator (Some "A")
    (mkPaginator
       [inl (mkListObjectsV2Output [mkS3Object (Some "k1")]);
        inl (mkListObjectsV2Output []);
        inl (mkListObjectsV2Output [mkS3Object (Some "k2")])])
    [] None.

(** ** Error messages *)

(** The one-character string of a line feed. *)
Definition newline : string := String (Ascii.ascii_of_nat 10) EmptyString.

(** [aws.ToString]: the pointed-to string, or the empty string for nil. *)
Definition ToString (p : option string) : string :=
  match p with
  | Some s => s
  | None => ""
  end.

Section Messages.

(** The [%q] verb of [fmt.Sprintf] and the [Error()] method of the original
    errors belong to Go's library and to the errors' own packages. *)
Variable quote : string -> string.
Variable error_Error : error -> string.

(** [func (err *Error) Error() string] *)
Definition Error_Error (err : Error) : string :=
  let origErr := match OrigErr err with
                 | Some e => (":" ++ newline ++ error_Error e)%string
                 | None => ""
                 end in
  ("failed to perform batch operation on " ++ quote (ToString (err_Key err)) ++
   " to " ++ quote (ToString (err_Bucket err)) ++ origErr)%string.

(** [for i, err := range errs { buf.WriteString(err.Error());
    if i+1 < len(errs) { buf.WriteString("\n") } }], from index [i] on, for a
    slice of [n] errors. *)
Fixpoint Errors_Error_from (i n : nat) (errs : list Error) (buf : string) : string :=
  match errs with
  | [] => buf
  | err :: rest =>
      let buf := (buf ++ Error_Error err)%string in
      let buf := if (i + 1 <? n)%nat then (buf ++ newline)%string else buf in
      Errors_Error_from (S i) n rest buf
  end.

(** [func (errs Errors) Error() string] *)
Definition Errors_Error (errs : list Error) : string :=
  Errors_Error_from 0 (length errs) errs "".

End Messages.

(** ** Constructing the paginated iterator *)

(** [NewDeleteListIterator(svc, input, opts...)]: the bucket of the listing
    input, the paginator the SDK builds for it, no buffered object and no
    error, then the options in order. *)
Definition NewDeleteListIterator (bucket : option string)
    (paginator : ListObjectsV2Paginator)
    (opts : list (DeleteListIterator -> DeleteListIterator)) : DeleteListIterator :=
  fold_left (fun iter opt => opt iter) opts
    (mkDeleteListIterator bucket paginator [] None).

(** ** More helpers for the statements *)

(** The [Error] a failed call records for the candidate [o] when the call's
    request has [o]'s bucket. *)
Definition candidateError (e : error) (o : BatchDeleteObject) : Error :=
  newError (Some e) (Bucket (Object o)) (Key (Object o)).

(** Consecutive groups of candidates that can never share a batch: the last
    candidate of a group and the first of the next differ in bucket, MFA or
    request payer. *)
Fixpoint breaksBetween (runs : list (list BatchDeleteObject)) : Prop :=
  match runs with
  | [] => True
  | r :: rest =>
      match rest with
      | [] => True
      | r' :: _ =>
          forall a b, In a r -> hd_error r' = Some b -> ~ sameFlags a b
      end /\ breaksBetween rest
  end.

(** A request option that redirects the request to the bucket [x]. *)
Definition withBucket (x : string) (i : DeleteObjectsInput) : DeleteObjectsInput :=
  mkDeleteObjectsInput (Some x) (in_MFA i) (in_RequestPayer i) (Delete_Objects i).

(** A listing of bucket A in two full pages, of two keys and of three. *)
Definition twoPages : ListObjectsV2Paginator :=
  mkPaginator
    [inl (mkListObjectsV2Output [mkS3Object (Some "k1"); mkS3Object (Some "k2")]);
     inl (mkListObjectsV2Output
            [mkS3Object (Some "k3"); mkS3Object (Some "k4"); mkS3Object (Some "k5")])].

(** A candidate whose hook, if it has one, never fails. *)
Definition quiet (o : BatchDeleteObject) : Prop :=
  forall hook t, After o = Some hook -> hook t = None.

(** The request left open for [o] under [withBucket x]: the bucket [x], the
    MFA and request payer of [o], and [o] alone. *)
Definition seeded (x : string) (o : BatchDeleteObject) : DeleteObjectsInput :=
  mkDeleteObjectsInput (Some x) (MFA (Object o)) (RequestPayer (Object o)) [identOf o].

(** [func (err *BatchError) Code() string] and [Message() string] *)
Definition BatchError_Code (err : BatchError) : string := code err.
Definition BatchError_Message (err : BatchError) : string := message err.

(** A request option that leaves the bucket, the MFA token, the request
    payer and the objects of the request as they are. *)
Definition preservesRequest (opt : DeleteObjectsInput -> DeleteObjectsInput) : Prop :=
  forall i,
    in_Bucket (opt i) = in_Bucket i /\
    in_MFA (opt i) = in_MFA i /\
    in_RequestPayer (opt i) = in_RequestPayer i /\
    Delete_Objects (opt i) = Delete_Objects i.

(** A constructor option that leaves the batch size as it is. *)
Definition preservesBatchSize (opt : BatchDelete -> BatchDelete) : Prop :=
  forall svc, BatchSize (opt svc) = BatchSize svc.

(** A request option that adds one more object, of key [k], to the request. *)
Definition withExtraObject (k : string) (i : DeleteObjectsInput) : DeleteObjectsInput :=
  mkDeleteObjectsInput (in_Bucket i) (in_MFA i) (in_RequestPayer i)
    (Delete_Objects i ++ [mkObjectIdentifier (Some k) None]).

(** * Properties *)

(** ** Parity is equality of the three request-level fields *)

Lemma ptr_differs_false (p q : option string) :
  ptr_differs p q = false <-> p = q.
Proof.
  destruct p as [a|], q as [b|]; simpl; split; intro E;
    try discriminate; try reflexivity.
  - apply negb_false_iff, String.eqb_eq in E. now subst.
  - injection E as ->. now rewrite String.eqb_refl.
Qed.

Lemma payer_differs_false (a b : string) :
  payer_differs a b = false <-> a = b.
Proof.
  unfold payer_differs.
  destruct (negb (a =? "")%string && negb (b =? "")%string);
    rewrite negb_false_iff; apply String.eqb_eq.
Qed.

Lemma hasParity_true (i : DeleteObjectsInput) (o : BatchDeleteObject) :
  hasParity i o = true <->
  in_Bucket i = Bucket (Object o) /\ in_MFA i = MFA (Object o) /\
  in_RequestPayer i = RequestPayer (Object o).
Proof.
  unfold hasParity.
  destruct (ptr_differs (in_Bucket i) (Bucket (Object o))) eqn:Eb.
  { split; [discriminate|]. intros (E & _).
    apply ptr_differs_false in E. congruence. }
  destruct (ptr_differs (in_MFA i) (MFA (Object o))) eqn:Em.
  { split; [discriminate|]. intros (_ & E & _).
    apply ptr_differs_false in E. congruence. }
  destruct (payer_differs (in_RequestPayer i) (RequestPayer (Object o))) eqn:Er.
  { split; [discriminate|]. intros (_ & _ & E).
    apply payer_differs_false in E. congruence. }
  apply ptr_differs_false in Eb, Em. apply payer_differs_false in Er.
  tauto.
Qed.

Lemma hasParity_init (o : BatchDeleteObject) :
  hasParity (initDeleteObjectsInput (Object o)) o = true.
Proof. apply hasParity_true. simpl. auto. Qed.

Lemma hasParity_group (o x : BatchDeleteObject) (g : list BatchDeleteObject) :
  hasParity (groupInput (o :: g)) x = true <-> sameFlags o x.
Proof. rewrite hasParity_true. reflexivity. Qed.

(** ** Traces *)

Lemma calls_app (t u : Trace) : calls (t ++ u) = calls t ++ calls u.
Proof. apply flat_map_app. Qed.

Lemma hookRuns_app (t u : Trace) : hookRuns (t ++ u) = hookRuns t ++ hookRuns u.
Proof. apply flat_map_app. Qed.

Lemma callSizes_app (t u : Trace) : callSizes (t ++ u) = callSizes t ++ callSizes u.
Proof. unfold callSizes. now rewrite calls_app, map_app. Qed.

Lemma hookEvents_calls (t : Trace) (os : list BatchDeleteObject) (evs : Trace) :
  hookEvents t os evs -> calls evs = [].
Proof.
  induction 1 as [|t o hook os evs _ _ IH]; [reflexivity|]. exact IH.
Qed.

Lemma hookEvents_runs (t : Trace) (os : list BatchDeleteObject) (evs : Trace) :
  hookEvents t os evs -> hookRuns evs = map Object os.
Proof.
  induction 1 as [|t o hook os evs _ _ IH]; [reflexivity|].
  simpl. now rewrite <- IH.
Qed.


(** ** One batch *)

Lemma runAfter_spec (objs : list BatchDeleteObject) :
  forall (es : list Error) (t : Trace),
  exists evs,
    runAfter objs es t = (es ++ flat_map eventErrors evs, t ++ evs) /\
    hookEvents t (filter hasHook objs) evs.
Proof.
  induction objs as [|o objs IH]; intros es t; simpl.
  - exists []. rewrite !app_nil_r. split; [reflexivity | constructor].
  - unfold hasHook at 1. destruct (After o) as [hook|] eqn:Ehook.
    + set (r := hook t).
      assert (Hgo : exists es',
                 (match r with
                  | Some err =>
                      runAfter objs
                        (es ++ [newError (Some err) (Bucket (Object o)) (Key (Object o))])
                        (t ++ [EvAfter (Object o) r])
                  | None => runAfter objs es (t ++ [EvAfter (Object o) r])
                  end) = runAfter objs es' (t ++ [EvAfter (Object o) r]) /\
                 es' = es ++ eventErrors (EvAfter (Object o) r)).
      { destruct r as [err|]; eexists; split; try reflexivity.
        simpl. now rewrite app_nil_r. }
      destruct Hgo as (es' & -> & ->).
      destruct (IH (es ++ eventErrors (EvAfter (Object o) r))
                   (t ++ [EvAfter (Object o) r])) as (evs & -> & Hevs).
      exists (EvAfter (Object o) r :: evs). split.
      * simpl. now rewrite <- !app_assoc.
      * now apply hookEvents_cons.
    + apply IH.
Qed.

Lemma deleteBatch_spec (d : BatchDelete) (i : DeleteObjectsInput)
    (objs : list BatchDeleteObject) (t : Trace) :
  exists evs,
    deleteBatch d i objs t =
      (callErrors i (Client d t i) ++ flat_map eventErrors evs,
       t ++ EvDeleteObjects i (Client d t i) :: evs) /\
    hookEvents (t ++ [EvDeleteObjects i (Client d t i)]) (filter hasHook objs) evs.
Proof.
  unfold deleteBatch.
  destruct (runAfter_spec objs (callErrors i (Client d t i))
              (t ++ [EvDeleteObjects i (Client d t i)])) as (evs & -> & Hevs).
  exists evs. now rewrite <- app_assoc.
Qed.

(** The trace and the errors of a batch, without naming the hook events. *)
Lemma deleteBatch_events (d : BatchDelete) (i : DeleteObjectsInput)
    (objs : list BatchDeleteObject) (t : Trace) :
  exists evs,
    deleteBatch d i objs t = (flat_map eventErrors evs, t ++ evs) /\
    calls evs = [i] /\
    hookRuns evs = map Object (filter hasHook objs).
Proof.
  destruct (deleteBatch_spec d i objs t) as (evs & -> & Hevs).
  exists (EvDeleteObjects i (Client d t i) :: evs). repeat split.
  - simpl. now rewrite (hookEvents_calls _ _ _ Hevs).
  - simpl. exact (hookEvents_runs _ _ _ Hevs).
Qed.

(** ** One loop iteration, without request options *)

Lemma appendObject_group (g : list BatchDeleteObject) (o0 o : BatchDeleteObject) :
  appendObject (groupInput (o0 :: g)) (Object o) = groupInput ((o0 :: g) ++ [o]).
Proof. unfold appendObject. simpl. now rewrite map_app. Qed.

Lemma groupInput_length (g : list BatchDeleteObject) :
  length (Delete_Objects (groupInput g)) = length g.
Proof. destruct g; simpl; [reflexivity|]. now rewrite length_map. Qed.

Lemma loopBody_coherent (d : BatchDelete) (st : DeleteState) (o : BatchDeleteObject) :
  coherent st ->
  loopBody d [] st o =
    if joins (objects st) o then
      if (Z.of_nat (length (objects st ++ [o])) =? BatchSize d)%Z
      then flush d (objects st ++ [o]) st
      else openWith (objects st ++ [o]) st
    else openWith [o] (flush d (objects st) st).
Proof.
  destruct st as [es objs i t]. unfold coherent. simpl. intros ->.
  destruct objs as [|o0 g].
  - unfold loopBody, flush, openWith.
    cbn [input objects errs trace applyOpts fold_left joins app].
    rewrite hasParity_init. cbn [negb]. rewrite orb_false_r.
    change (appendObject (initDeleteObjectsInput (Object o)) (Object o))
      with (groupInput [o]).
    rewrite groupInput_length.
    destruct (Z.of_nat (length [o]) =? BatchSize d)%Z; reflexivity.
  - unfold loopBody, flush, openWith. cbn [input objects errs trace applyOpts fold_left joins].
    destruct (hasParity (groupInput (o0 :: g)) o) eqn:Ep.
    + rewrite appendObject_group, groupInput_length.
      cbn [negb orb]. rewrite orb_false_r.
      destruct (Z.of_nat (length ((o0 :: g) ++ [o])) =? BatchSize d)%Z; reflexivity.
    + cbn [negb]. rewrite orb_true_r.
      destruct (deleteBatch d (groupInput (o0 :: g)) (o0 :: g) t); reflexivity.
Qed.

Lemma flush_coherent d g st : coherent (flush d g st).
Proof. unfold flush. destruct (deleteBatch _ _ _ _). reflexivity. Qed.

Lemma openWith_coherent g st : g <> [] -> coherent (openWith g st).
Proof. destruct g; [congruence|]. reflexivity. Qed.

Lemma loopBody_keeps_coherent d st o :
  coherent st -> coherent (loopBody d [] st o).
Proof.
  intro H. rewrite (loopBody_coherent d st o H).
  destruct (joins (objects st) o).
  - destruct (_ =? _)%Z; [apply flush_coherent|].
    apply openWith_coherent. now destruct (objects st).
  - now apply openWith_coherent.
Qed.

(** What a flush adds to the trace and to the errors. *)
Lemma flush_events (d : BatchDelete) (g : list BatchDeleteObject) (st : DeleteState) :
  exists evs,
    trace (flush d g st) = trace st ++ evs /\
    errs (flush d g st) = errs st ++ flat_map eventErrors evs /\
    objects (flush d g st) = [] /\
    calls evs = [groupInput g] /\
    hookRuns evs = map Object (filter hasHook g).
Proof.
  unfold flush.
  destruct (deleteBatch_events d (groupInput g) g (trace st)) as (evs & -> & Hc & Hh).
  exists evs. simpl. auto.
Qed.

(** ** The whole loop *)

Lemma loop_spec (d : BatchDelete) (l : list BatchDeleteObject) :
  forall st, coherent st ->
  exists evs,
    trace (fold_left (loopBody d []) l st) = trace st ++ evs /\
    errs (fold_left (loopBody d []) l st) = errs st ++ flat_map eventErrors evs /\
    coherent (fold_left (loopBody d []) l st) /\
    map groupInput (batchesFrom (BatchSize d) (objects st) l) =
      calls evs ++
      map groupInput
        (batchesFrom (BatchSize d) (objects (fold_left (loopBody d []) l st)) []) /\
    map Object (filter hasHook (objects st ++ l)) =
      hookRuns evs ++
      map Object (filter hasHook (objects (fold_left (loopBody d []) l st))).
Proof.
  induction l as [|o l IH]; intros st Hst.
  - exists []. simpl. rewrite !app_nil_r. auto.
  - cbn [fold_left batchesFrom].
    pose proof (loopBody_keeps_coherent d st o Hst) as Hst1.
    destruct (IH _ Hst1) as (evs2 & Ht & He & Hc & Hb & Hh). clear IH.
    revert Ht He Hc Hb Hh. rewrite (loopBody_coherent d st o Hst).
    destruct (joins (objects st) o).
    + destruct (Z.of_nat (length (objects st ++ [o])) =? BatchSize d)%Z.
      * destruct (flush_events d (objects st ++ [o]) st)
          as (evs1 & -> & -> & -> & Hc1 & Hh1).
        intros Ht He Hc Hb Hh. exists (evs1 ++ evs2).
        rewrite Ht, He, calls_app, hookRuns_app, flat_map_app, Hc1, Hh1.
        rewrite <- !app_assoc. repeat split; auto.
        -- simpl. now rewrite Hb.
        -- replace (objects st ++ o :: l) with ((objects st ++ [o]) ++ l)
             by now rewrite <- app_assoc.
           rewrite filter_app, map_app. simpl in Hh. now rewrite Hh.
      * unfold openWith. cbn [trace errs objects].
        intros Ht He Hc Hb Hh. exists evs2. repeat split; auto.
        now rewrite <- Hh, <- app_assoc.
    + unfold openWith. cbn [trace errs objects].
      destruct (flush_events d (objects st) st)
        as (evs1 & -> & -> & _ & Hc1 & Hh1).
      intros Ht He Hc Hb Hh. exists (evs1 ++ evs2).
      rewrite Ht, He, calls_app, hookRuns_app, flat_map_app, Hc1, Hh1.
      rewrite <- !app_assoc. repeat split; auto.
      * simpl. now rewrite Hb.
      * rewrite filter_app, map_app. change ([o] ++ l) with (o :: l) in Hh.
        now rewrite Hh.
Qed.

Lemma resultOf_length (es : list Error) :
  (if (0 <? length es)%nat
   then Some (NewBatchError "BatchedDeleteIncomplete"
                            "some objects have failed to be deleted." es)
   else None) = resultOf es.
Proof. now destruct es. Qed.

Lemma afterLoop_spec (d : BatchDelete) (st : DeleteState) (e : option error) :
  coherent st ->
  exists evs,
    afterLoop d st e =
      (resultOf (errs st ++ iterError e ++ flat_map eventErrors evs),
       trace st ++ evs) /\
    calls evs = map groupInput (batchesFrom (BatchSize d) (objects st) []) /\
    hookRuns evs = map Object (filter hasHook (objects st)).
Proof.
  unfold coherent, afterLoop. intros Hin.
  assert (Hes : match e with
                | Some e0 => errs st ++ [newError (Some e0) None None]
                | None => errs st
                end = errs st ++ iterError e).
  { destruct e; simpl; [reflexivity | now rewrite app_nil_r]. }
  rewrite Hes, Hin. clear Hes Hin.
  destruct (objects st) as [|o0 g] eqn:Eobjs.
  - exists []. cbv beta iota. cbn [flat_map]. rewrite !app_nil_r.
    split; [|auto]. f_equal. apply resultOf_length.
  - rewrite groupInput_length. cbn [length Nat.ltb Nat.leb].
    destruct (deleteBatch_events d (groupInput (o0 :: g)) (o0 :: g) (trace st))
      as (evs & -> & Hc & Hh).
    exists evs. cbv beta iota. rewrite <- app_assoc.
    split; [|auto]. f_equal. apply resultOf_length.
Qed.

Lemma initialState_coherent : coherent initialState.
Proof. reflexivity. Qed.

(** The run over the candidates [l]: the events of the loop, then those of
    the last flush, with the iterator's error recorded in between. *)
Lemma DeleteList_spec (d : BatchDelete) (l : list BatchDeleteObject) (e : option error) :
  exists t1 t2 last,
    DeleteList d [] l e =
      (resultOf (flat_map eventErrors t1 ++ iterError e ++ flat_map eventErrors t2),
       t1 ++ t2) /\
    calls (t1 ++ t2) = map groupInput (batchesFrom (BatchSize d) [] l) /\
    calls t2 = map groupInput (batchesFrom (BatchSize d) last []) /\
    hookRuns (t1 ++ t2) = map Object (filter hasHook l).
Proof.
  unfold DeleteList.
  destruct (loop_spec d l initialState initialState_coherent)
    as (t1 & Ht & He & Hc & Hb & Hh).
  change (objects initialState) with (@nil BatchDeleteObject) in Hb, Hh.
  change (trace initialState ++ t1) with t1 in Ht.
  change (errs initialState ++ flat_map eventErrors t1)
    with (flat_map eventErrors t1) in He.
  destruct (afterLoop_spec d _ e Hc) as (t2 & -> & Hc2 & Hh2).
  exists t1, t2, (objects (fold_left (loopBody d []) l initialState)).
  rewrite Ht, He. repeat split; auto.
  - rewrite calls_app, Hc2. symmetry. exact Hb.
  - rewrite hookRuns_app, Hh2. symmetry. exact Hh.
Qed.

(** ** From an iterator to its candidates *)

Lemma DeleteLoop_yields {I : Type} `{BatchDeleteIterator I}
    (d : BatchDelete) (opts : list (DeleteObjectsInput -> DeleteObjectsInput))
    (iter iter' : I) (l : list BatchDeleteObject) :
  yields iter l iter' ->
  forall fuel st, (length l < fuel)%nat ->
  DeleteLoop fuel d opts iter st = Returned (iter', fold_left (loopBody d opts) l st).
Proof.
  induction 1 as [iter iter' Hn | iter iter1 o l iter' Hn Ho _ IH];
    intros [|fuel] st Hf; simpl in Hf; try lia; simpl; rewrite Hn.
  - reflexivity.
  - rewrite Ho. apply IH. lia.
Qed.

Lemma Delete_yields {I : Type} `{BatchDeleteIterator I}
    (d : BatchDelete) (opts : list (DeleteObjectsInput -> DeleteObjectsInput))
    (iter iter' : I) (l : list BatchDeleteObject) (fuel : nat) :
  yields iter l iter' -> (length l < fuel)%nat ->
  Delete fuel d iter opts = Returned (DeleteList d opts l (Err iter')).
Proof.
  intros Hy Hf. unfold Delete, DeleteList.
  now rewrite (DeleteLoop_yields d opts iter iter' l Hy fuel initialState Hf).
Qed.

(** ** Request options that leave the request alone *)

Lemma preservesRequest_id (opt : DeleteObjectsInput -> DeleteObjectsInput)
    (i : DeleteObjectsInput) :
  preservesRequest opt -> opt i = i.
Proof.
  intros Hp. destruct (Hp i) as (Hb & Hm & Hr & Ho).
  destruct (opt i), i. simpl in *. congruence.
Qed.

Lemma applyOpts_preserving (opts : list (DeleteObjectsInput -> DeleteObjectsInput)) :
  Forall preservesRequest opts -> forall i, applyOpts opts i = i.
Proof.
  induction 1 as [|opt opts Hopt _ IH]; intros i; [reflexivity|].
  unfold applyOpts in *. cbn [fold_left].
  now rewrite (preservesRequest_id opt i Hopt).
Qed.

Lemma loopBody_preserving (d : BatchDelete)
    (opts : list (DeleteObjectsInput -> DeleteObjectsInput)) :
  Forall preservesRequest opts ->
  forall st o, loopBody d opts st o = loopBody d [] st o.
Proof.
  intros Hopts st o. unfold loopBody.
  rewrite !(applyOpts_preserving opts Hopts). reflexivity.
Qed.

Lemma DeleteList_preserving (d : BatchDelete)
    (opts : list (DeleteObjectsInput -> DeleteObjectsInput))
    (l : list BatchDeleteObject) (e : option error) :
  Forall preservesRequest opts ->
  DeleteList d opts l e = DeleteList d [] l e.
Proof.
  intros Hopts. unfold DeleteList. f_equal.
  generalize initialState. induction l as [|o l IH]; intros st; [reflexivity|].
  cbn [fold_left]. now rewrite (loopBody_preserving d opts Hopts), IH.
Qed.

(** ** The groups of a run *)

Lemma batchesFrom_concat (B : Z) (l : list BatchDeleteObject) :
  forall g, concat (batchesFrom B g l) = g ++ l.
Proof.
  induction l as [|o l IH]; intros g; simpl.
  - destruct g; simpl; now rewrite ?app_nil_r.
  - destruct (joins g o).
    + destruct (_ =? _)%Z; simpl; rewrite IH; now rewrite <- ?app_assoc.
    + simpl. now rewrite IH.
Qed.

Lemma parity_snoc (g : list BatchDeleteObject) (o : BatchDeleteObject) :
  (forall x, In x g -> hasParity (groupInput g) x = true) ->
  joins g o = true ->
  forall x, In x (g ++ [o]) -> hasParity (groupInput (g ++ [o])) x = true.
Proof.
  intros Hg Hj x Hx. destruct g as [|o0 r].
  - destruct Hx as [<- | []]. apply hasParity_true. simpl. auto.
  - apply in_app_or in Hx.
    change (hasParity (groupInput ((o0 :: r) ++ [o])) x)
      with (hasParity (groupInput (o0 :: r)) x).
    destruct Hx as [Hx | [<- | []]]; [now apply Hg | exact Hj].
Qed.

Lemma batchesFrom_good (B : Z) (l : list BatchDeleteObject) :
  (1 <= B)%Z ->
  forall g,
    (Z.of_nat (length g) < B)%Z ->
    (forall x, In x g -> hasParity (groupInput g) x = true) ->
    Forall (goodGroup B) (batchesFrom B g l).
Proof.
  intros HB. induction l as [|o l IH]; intros g Hlen Hpar; simpl.
  - destruct g as [|o0 r]; constructor; [|constructor].
    repeat split; [discriminate | lia | exact Hpar].
  - destruct (joins g o) eqn:Hj.
    + pose proof (parity_snoc g o Hpar Hj) as Hpar'.
      assert (Hl : length (g ++ [o]) = S (length g))
        by (rewrite length_app; simpl; lia).
      destruct (Z.of_nat (length (g ++ [o])) =? B)%Z eqn:E.
      * apply Z.eqb_eq in E. constructor.
        -- repeat split; [now destruct g | lia | exact Hpar'].
        -- apply IH; [simpl; lia | intros x []].
      * apply Z.eqb_neq in E. apply IH; [lia | exact Hpar'].
    + assert (Hg : g <> []) by (intros ->; discriminate).
      assert (Hl : (1 <= length g)%nat)
        by (destruct g; [congruence | simpl; lia]).
      constructor.
      * repeat split; [exact Hg | lia | exact Hpar].
      * apply IH; [simpl; lia|].
        intros x [<- | []]. apply hasParity_true. simpl. auto.
Qed.

Lemma chunkSizes_zero (b : nat) : chunkSizes b 0 = [].
Proof.
  unfold chunkSizes. destruct b; [reflexivity|].
  now rewrite Nat.Div0.div_0_l, Nat.Div0.mod_0_l.
Qed.

Lemma chunkSizes_small (b n : nat) :
  (0 < n < b)%nat -> chunkSizes b n = [n].
Proof.
  intros H. unfold chunkSizes.
  rewrite Nat.div_small, Nat.mod_small by lia.
  destruct (n =? 0)%nat eqn:E; [apply Nat.eqb_eq in E; lia | reflexivity].
Qed.

Lemma chunkSizes_full (b m : nat) :
  (0 < b)%nat -> chunkSizes b (b + m) = b :: chunkSizes b m.
Proof.
  intros H. unfold chunkSizes.
  replace (b + m)%nat with (1 * b + m)%nat by lia.
  rewrite Nat.div_add_l by lia.
  replace (1 * b + m)%nat with (m + 1 * b)%nat by lia.
  rewrite Nat.Div0.mod_add. reflexivity.
Qed.

Lemma chunkSizes_length (b n : nat) :
  (0 < b)%nat -> length (chunkSizes b n) = ((n + b - 1) / b)%nat.
Proof.
  intros H. unfold chunkSizes. rewrite length_app, repeat_length.
  pose proof (Nat.div_mod_eq n b) as E.
  pose proof (Nat.mod_upper_bound n b ltac:(lia)) as Hr.
  destruct (n mod b =? 0)%nat eqn:Ez.
  - apply Nat.eqb_eq in Ez. simpl.
    rewrite Nat.add_0_r.
    apply (Nat.div_unique _ b (n / b) (b - 1)); lia.
  - apply Nat.eqb_neq in Ez. simpl.
    apply (Nat.div_unique _ b (n / b + 1) (n mod b - 1)); lia.
Qed.

Lemma uniform_joins (g : list BatchDeleteObject) (o : BatchDeleteObject) :
  uniform (g ++ [o]) -> joins g o = true.
Proof.
  intros U. destruct g as [|o0 r]; [reflexivity|].
  apply hasParity_group. apply U.
  - now left.
  - apply in_or_app. right. now left.
Qed.

Lemma batchesFrom_uniform (b : nat) (l : list BatchDeleteObject) :
  (0 < b)%nat ->
  forall g,
    (length g < b)%nat -> uniform (g ++ l) ->
    map (@length _) (batchesFrom (Z.of_nat b) g l) =
    chunkSizes b (length g + length l).
Proof.
  intros Hb. induction l as [|o l IH]; intros g Hlen U; simpl.
  - rewrite Nat.add_0_r. destruct g as [|o0 r].
    + now rewrite chunkSizes_zero.
    + simpl. rewrite chunkSizes_small; [reflexivity | simpl in *; lia].
  - assert (Hj : joins g o = true).
    { apply uniform_joins. intros x y Hx Hy.
      apply U; apply in_app_or in Hx, Hy; apply in_or_app; simpl in *; tauto. }
    rewrite Hj.
    assert (Hl : length (g ++ [o]) = S (length g))
      by (rewrite length_app; simpl; lia).
    assert (U' : uniform ((g ++ [o]) ++ l)) by now rewrite <- app_assoc.
    destruct (Z.of_nat (length (g ++ [o])) =? Z.of_nat b)%Z eqn:E.
    + apply Z.eqb_eq in E. apply Nat2Z.inj in E. cbn [map].
      rewrite (IH []); [| simpl; lia |].
      * rewrite E. cbn [length Nat.add].
        rewrite <- chunkSizes_full by lia. f_equal. lia.
      * intros x y Hx Hy. apply U'; apply in_or_app; now right.
    + apply Z.eqb_neq in E.
      rewrite (IH (g ++ [o])); [f_equal; lia | | exact U'].
      assert (length (g ++ [o]) <> b) by (intros F; apply E; now rewrite F).
      lia.
Qed.

(** ** The static iterator yields its list *)

Lemma int_wrap_small (z : Z) : (0 <= z < 2 ^ 63)%Z -> int_wrap z = z.
Proof. intros H. unfold int_wrap. rewrite Z.mod_small; lia. Qed.

Lemma DeleteObjectsIterator_yields_from (suf : list BatchDeleteObject) :
  forall (pre L : list BatchDeleteObject) (k : Z),
    L = pre ++ suf ->
    (Z.of_nat (length L) < 2 ^ 63)%Z ->
    k = (Z.of_nat (length pre) - 1)%Z ->
    yields (mkDeleteObjectsIterator L k true) suf
           (mkDeleteObjectsIterator L (Z.of_nat (length L)) true).
Proof.
  induction suf as [|o s IH]; intros pre L k HL Hlen Hk.
  - apply yields_stop. simpl. unfold DeleteObjectsIterator_Next. simpl.
    assert (E : (k + 1 = Z.of_nat (length L))%Z)
      by (subst; rewrite app_nil_r; lia).
    rewrite E, int_wrap_small, Z.ltb_irrefl by lia. reflexivity.
  - assert (Hpre : (Z.of_nat (length pre) < Z.of_nat (length L))%Z)
      by (subst L; rewrite length_app; simpl; lia).
    apply yields_more with (iter1 := mkDeleteObjectsIterator L (k + 1) true).
    + simpl. unfold DeleteObjectsIterator_Next. simpl.
      rewrite int_wrap_small by lia.
      replace (k + 1 <? Z.of_nat (length L))%Z with true; [reflexivity|].
      symmetry. apply Z.ltb_lt. lia.
    + simpl. unfold DeleteObjectsIterator_DeleteObject. simpl.
      replace (k + 1 <? 0)%Z with false by (symmetry; apply Z.ltb_ge; lia).
      replace (Z.to_nat (k + 1)) with (length pre) by lia.
      subst L. rewrite nth_error_app2, Nat.sub_diag by lia. reflexivity.
    + apply (IH (pre ++ [o])).
      * subst L. now rewrite <- app_assoc.
      * exact Hlen.
      * rewrite length_app. simpl. lia.
Qed.

(** A fresh static iterator over [l] yields exactly [l] and reports no error. *)
Lemma DeleteObjectsIterator_yields (l : list BatchDeleteObject) :
  (Z.of_nat (length l) < 2 ^ 63)%Z ->
  yields (mkDeleteObjectsIterator l 0 false) l
         (mkDeleteObjectsIterator l (Z.of_nat (length l)) true).
Proof.
  intros Hlen. destruct l as [|o s].
  - apply yields_stop. reflexivity.
  - apply yields_more with (iter1 := mkDeleteObjectsIterator (o :: s) 0 true).
    + simpl. unfold DeleteObjectsIterator_Next. simpl. reflexivity.
    + reflexivity.
    + apply (DeleteObjectsIterator_yields_from s [o]); simpl; auto; lia.
Qed.

Lemma staticIterator_yields (l : list BatchDeleteObject) :
  (Z.of_nat (length l) < 2 ^ 63)%Z ->
  yields (staticIterator l) l
         (mkDeleteObjectsIterator l (Z.of_nat (length l)) true).
Proof. apply DeleteObjectsIterator_yields. Qed.

(** ** Batch sizes of a run of one parity *)

(** C1, amended.  An iterator yields [n] candidates that all share bucket,
    MFA and request payer, the batch size [b] is at least 1, and the request
    options, if any, leave the bucket, MFA, request payer and objects of the
    request as they are.  Then [Delete] returns, having issued exactly
    ceil(n/b) [DeleteObjects] calls: n/b calls of [b] objects each, followed
    by one call of [n mod b] objects when [b] does not divide [n]. *)
Theorem uniform_run_call_sizes {I : Type} `{BatchDeleteIterator I}
    (d : BatchDelete) (iter iter' : I) (l : list BatchDeleteObject) (fuel : nat)
    (opts : list (DeleteObjectsInput -> DeleteObjectsInput)) :
  yields iter l iter' ->
  (length l < fuel)%nat ->
  uniform l ->
  (1 <= BatchSize d)%Z ->
  Forall preservesRequest opts ->
  exists ret t,
    Delete fuel d iter opts = Returned (ret, t) /\
    length (calls t) =
      ((length l + Z.to_nat (BatchSize d) - 1) / Z.to_nat (BatchSize d))%nat /\
    callSizes t =
      repeat (Z.to_nat (BatchSize d)) (length l / Z.to_nat (BatchSize d)) ++
      (if (length l mod Z.to_nat (BatchSize d) =? 0)%nat then []
       else [(length l mod Z.to_nat (BatchSize d))%nat]).
Proof.
  intros Hy Hf U HB Hopts.
  rewrite (Delete_yields d opts iter iter' l fuel Hy Hf),
          (DeleteList_preserving d opts l _ Hopts).
  destruct (DeleteList_spec d l (Err iter')) as (t1 & t2 & last & -> & Hc & _).
  set (b := Z.to_nat (BatchSize d)).
  assert (Hb : (0 < b)%nat) by (subst b; lia).
  assert (Hs : callSizes (t1 ++ t2) = chunkSizes b (length l)).
  { unfold callSizes. rewrite Hc, map_map.
    replace (BatchSize d) with (Z.of_nat b) by (subst b; lia).
    rewrite (map_ext _ (@length _) groupInput_length).
    now rewrite batchesFrom_uniform by (simpl; auto; lia). }
  eexists _, _. split; [reflexivity|]. split.
  - rewrite <- (length_map (fun i => length (Delete_Objects i))).
    fold (callSizes (t1 ++ t2)). rewrite Hs. now apply chunkSizes_length.
  - exact Hs.
Qed.

(** The scenario of 1500 candidates of one bucket with batch size 1000. *)
Lemma uniform_run_1500 :
  exists ret t,
    Delete 1501 (mkBatchDelete okClient 1000)
           (staticIterator (repeat (plain "bucket" "key") 1500)) [] =
      Returned (ret, t) /\
    ret = None /\
    length (calls t) = 2%nat /\
    callSizes t = [1000; 500]%nat.
Proof.
  destruct (uniform_run_call_sizes (mkBatchDelete okClient 1000)
              (staticIterator (repeat (plain "bucket" "key") 1500))
              (mkDeleteObjectsIterator (repeat (plain "bucket" "key") 1500)
                 (Z.of_nat (length (repeat (plain "bucket" "key") 1500))) true)
              (repeat (plain "bucket" "key") 1500) 1501 [])
    as (ret & t & E & Hn & Hs).
  - apply staticIterator_yields. rewrite repeat_length. reflexivity.
  - rewrite repeat_length. lia.
  - intros o1 o2 H1 H2. apply repeat_spec in H1, H2. subst.
    repeat split.
  - simpl. lia.
  - constructor.
  - exists ret, t. rewrite repeat_length in Hn, Hs.
    split; [exact E|]. split; [| split; [exact Hn | exact Hs]].
    assert (R : match Delete 1501 (mkBatchDelete okClient 1000)
                        (staticIterator (repeat (plain "bucket" "key") 1500)) []
                with
                | Returned (r, _) => r
                | _ => None
                end = None) by (vm_compute; reflexivity).
    rewrite E in R. exact R.
Defined.

(** Why the options must leave the request alone: two candidates of bucket
    A, batch size 1000 and an option that sets the bucket to X give three
    calls, of 0, 1 and 1 objects, and not one call of 2. *)
Lemma uniform_run_under_bucket_option :
  uniform [plain "A" "k1"; plain "A" "k2"] /\
  (exists ret t,
      Delete 3 (mkBatchDelete okClient 1000)
             (staticIterator [plain "A" "k1"; plain "A" "k2"]) [withBucket "X"] =
        Returned (ret, t) /\
      callSizes t = [0; 1; 1]%nat) /\
  ~ (exists ret t,
        Delete 3 (mkBatchDelete okClient 1000)
               (staticIterator [plain "A" "k1"; plain "A" "k2"]) [withBucket "X"] =
          Returned (ret, t) /\
        length (calls t) = ((2 + 1000 - 1) / 1000)%nat).
Proof.
  split; [|split].
  - intros o1 o2 [<- | [<- | []]] [<- | [<- | []]]; repeat split.
  - eexists _, _. split; [vm_compute; reflexivity | reflexivity].
  - intros (ret & t & E & Hn). vm_compute in E. injection E as _ <-.
    vm_compute in Hn. discriminate.
Defined.

(** ** The batch invariant *)

Lemma calls_of_good_groups (B : Z) (gs : list (list BatchDeleteObject)) :
  Forall (goodGroup B) gs ->
  Forall2
    (fun i g =>
       Delete_Objects i = map identOf g /\
       (1 <= length (Delete_Objects i))%nat /\
       (Z.of_nat (length (Delete_Objects i)) <= B)%Z /\
       (exists o0 rest,
           g = o0 :: rest /\
           in_Bucket i = Bucket (Object o0) /\
           in_MFA i = MFA (Object o0) /\
           in_RequestPayer i = RequestPayer (Object o0)) /\
       (forall o, In o g ->
                  hasParity i o = true /\
                  Bucket (Object o) = in_Bucket i /\
                  MFA (Object o) = in_MFA i /\
                  RequestPayer (Object o) = in_RequestPayer i))
    (map groupInput gs) gs.
Proof.
  induction 1 as [|g gs (Hne & Hlen & Hpar) _ IH]; simpl; constructor; [|exact IH].
  destruct g as [|o0 rest]; [congruence|].
  rewrite groupInput_length. repeat split.
  - simpl. lia.
  - exact Hlen.
  - exists o0, rest. simpl. auto.
  - now apply Hpar.
  - apply Hpar, hasParity_true in H. symmetry. apply H.
  - apply Hpar, hasParity_true in H. symmetry. apply H.
  - apply Hpar, hasParity_true in H. symmetry. apply H.
Qed.

(** C2, amended.  With a batch size of at least 1 and request options, if
    any, that leave the bucket, MFA, request payer and objects of the
    request as they are, the candidates an iterator yields are cut, in
    order, into consecutive groups, one per [DeleteObjects] call.  Each call
    carries the identifiers of its group, at least 1 and at
    most [BatchSize] of them; its bucket, MFA and request payer are those of
    the group's first candidate, and every candidate of the group has parity
    with the call, so all share that bucket, MFA and request payer. *)
Theorem every_call_keeps_the_batch_invariant {I : Type} `{BatchDeleteIterator I}
    (d : BatchDelete) (iter iter' : I) (l : list BatchDeleteObject) (fuel : nat)
    (opts : list (DeleteObjectsInput -> DeleteObjectsInput)) :
  yields iter l iter' ->
  (length l < fuel)%nat ->
  (1 <= BatchSize d)%Z ->
  Forall preservesRequest opts ->
  exists ret t gs,
    Delete fuel d iter opts = Returned (ret, t) /\
    concat gs = l /\
    Forall2
      (fun i g =>
         Delete_Objects i = map identOf g /\
         (1 <= length (Delete_Objects i))%nat /\
         (Z.of_nat (length (Delete_Objects i)) <= BatchSize d)%Z /\
         (exists o0 rest,
             g = o0 :: rest /\
             in_Bucket i = Bucket (Object o0) /\
             in_MFA i = MFA (Object o0) /\
             in_RequestPayer i = RequestPayer (Object o0)) /\
         (forall o, In o g ->
                    hasParity i o = true /\
                    Bucket (Object o) = in_Bucket i /\
                    MFA (Object o) = in_MFA i /\
                    RequestPayer (Object o) = in_RequestPayer i))
      (calls t) gs.
Proof.
  intros Hy Hf HB Hopts.
  rewrite (Delete_yields d opts iter iter' l fuel Hy Hf),
          (DeleteList_preserving d opts l _ Hopts).
  destruct (DeleteList_spec d l (Err iter')) as (t1 & t2 & last & -> & Hc & _).
  exists (resultOf (flat_map eventErrors t1 ++ iterError (Err iter') ++
                    flat_map eventErrors t2)),
         (t1 ++ t2), (batchesFrom (BatchSize d) [] l).
  split; [reflexivity|]. split; [apply batchesFrom_concat|].
  rewrite Hc. apply calls_of_good_groups.
  apply batchesFrom_good; [exact HB | simpl; lia | intros x []].
Qed.

(** Three buckets in a row, batch size 2: the calls are {a1,a2}, {a3}, {b1}. *)
Lemma batch_invariant_example :
  exists ret t gs,
    Delete 5 (mkBatchDelete okClient 2)
           (staticIterator [plain "A" "1"; plain "A" "2"; plain "A" "3";
                            plain "B" "4"]) [] = Returned (ret, t) /\
    concat gs = [plain "A" "1"; plain "A" "2"; plain "A" "3"; plain "B" "4"] /\
    Forall2
      (fun i g =>
         (1 <= length (Delete_Objects i))%nat /\
         (Z.of_nat (length (Delete_Objects i)) <= 2)%Z /\
         (forall o, In o g -> hasParity i o = true))
      (calls t) gs /\
    callSizes t = [2; 1; 1]%nat.
Proof.
  destruct (every_call_keeps_the_batch_invariant (mkBatchDelete okClient 2)
              (staticIterator [plain "A" "1"; plain "A" "2"; plain "A" "3";
                               plain "B" "4"])
              (mkDeleteObjectsIterator
                 [plain "A" "1"; plain "A" "2"; plain "A" "3"; plain "B" "4"]
                 4 true)
              [plain "A" "1"; plain "A" "2"; plain "A" "3"; plain "B" "4"] 5 [])
    as (ret & t & gs & E & Hcat & Hall).
  - apply (staticIterator_yields
             [plain "A" "1"; plain "A" "2"; plain "A" "3"; plain "B" "4"]).
    reflexivity.
  - simpl. lia.
  - simpl. lia.
  - constructor.
  - exists ret, t, gs. split; [exact E|]. split; [exact Hcat|]. split.
    + revert Hall. apply Forall2_impl. intros i g (_ & H1 & H2 & _ & H3).
      repeat split; [exact H1 | exact H2 |]. intros o Ho. now apply H3.
    + vm_compute in E. injection E as _ <-. reflexivity.
Defined.

(** Why the options must leave the request alone.  With an option that
    sets the bucket to X, the first call carries no object and the second
    goes to a bucket that is not its candidate's.  With an option that adds
    an object to the request, two candidates under batch size 3 go out in
    one call of 4 objects. *)
Lemma batch_invariant_under_options :
  (exists ret i1 r1 i2 r2,
      Delete 2 (mkBatchDelete okClient 3) (staticIterator [plain "A" "k1"])
             [withBucket "X"] =
        Returned (ret, [EvDeleteObjects i1 r1; EvDeleteObjects i2 r2]) /\
      length (Delete_Objects i1) = 0%nat /\
      Delete_Objects i2 = [identOf (plain "A" "k1")] /\
      hasParity i2 (plain "A" "k1") = false) /\
  (exists ret i r,
      Delete 3 (mkBatchDelete okClient 3)
             (staticIterator [plain "A" "k1"; plain "A" "k2"])
             [withExtraObject "extra"] =
        Returned (ret, [EvDeleteObjects i r]) /\
      length (Delete_Objects i) = 4%nat /\
      ~ (Z.of_nat (length (Delete_Objects i)) <= 3)%Z).
Proof.
  split.
  - eexists _, _, _, _, _. split; [vm_compute; reflexivity|].
    repeat split.
  - eexists _, _, _. split; [vm_compute; reflexivity|].
    split; [reflexivity|]. simpl. lia.
Defined.

(** ** Parity breaks *)

Lemma loopBody_parity_break (d : BatchDelete) (st : DeleteState)
    (i : DeleteObjectsInput) (o : BatchDeleteObject) :
  input st = Some i ->
  hasParity i o = false ->
  loopBody d [] st o =
    let '(err, t) := deleteBatch d i (objects st) (trace st) in
    mkDeleteState (errs st ++ err) [o]
      (Some (appendObject (initDeleteObjectsInput (Object o)) (Object o))) t.
Proof.
  intros Hi Hp. unfold loopBody. rewrite Hi.
  cbn [applyOpts fold_left]. rewrite Hp.
  cbn [negb]. rewrite orb_true_r. reflexivity.
Qed.

Lemma uniform_app_l (g l : list BatchDeleteObject) :
  uniform (g ++ l) -> uniform g.
Proof. intros U x y Hx Hy. apply U; apply in_or_app; now left. Qed.

(** While candidates join and the size is not reached, the group grows. *)
Lemma batchesFrom_grow (B : Z) (g l : list BatchDeleteObject) :
  forall g0,
    uniform (g0 ++ g) ->
    (Z.of_nat (length (g0 ++ g)) < B \/ B <= 0)%Z ->
    batchesFrom B g0 (g ++ l) = batchesFrom B (g0 ++ g) l.
Proof.
  induction g as [|x g IH]; intros g0 U Hlen.
  - now rewrite app_nil_r.
  - replace (g0 ++ x :: g) with ((g0 ++ [x]) ++ g) in *
      by now rewrite <- app_assoc.
    cbn [app batchesFrom].
    rewrite (uniform_joins g0 x) by exact (uniform_app_l _ _ U).
    assert (E : (Z.of_nat (length (g0 ++ [x])) =? B)%Z = false).
    { apply Z.eqb_neq. rewrite length_app in Hlen.
      assert (1 <= length (g0 ++ [x]))%nat by (rewrite length_app; simpl; lia).
      lia. }
    rewrite E. now apply IH.
Qed.

Lemma batchesFrom_break (B : Z) (g rest : list BatchDeleteObject)
    (o : BatchDeleteObject) :
  g <> [] -> uniform g ->
  hasParity (groupInput g) o = false ->
  (Z.of_nat (length g) < B \/ B <= 0)%Z ->
  batchesFrom B [] (g ++ o :: rest) = g :: batchesFrom B [] (o :: rest).
Proof.
  intros Hg U Hp Hlen.
  rewrite (batchesFrom_grow B g (o :: rest) []) by assumption.
  destruct g as [|o0 r]; [congruence|].
  cbn [app batchesFrom joins]. rewrite Hp.
  replace (Z.of_nat (length [o]) =? B)%Z with false; [reflexivity|].
  symmetry. apply Z.eqb_neq. simpl length in *. lia.
Qed.

(** C3, amended.  The request options, if any, leave the bucket, MFA,
    request payer and objects of the request as they are.  The iterator
    yields a group [g] of one parity that is still below the batch size,
    then a candidate [o] without parity with it.  Then the first
    [DeleteObjects] call is exactly [g], and the remaining calls are those of
    a run that starts afresh at [o].  In the loop itself: whatever the size
    of the open batch, a candidate without parity makes the iteration
    execute the open batch as it is and leave a new open batch holding that
    candidate alone. *)
Theorem parity_break_flushes_and_reseeds {I : Type} `{BatchDeleteIterator I}
    (d : BatchDelete) (iter iter' : I) (g rest : list BatchDeleteObject)
    (o : BatchDeleteObject) (fuel : nat)
    (opts : list (DeleteObjectsInput -> DeleteObjectsInput)) :
  yields iter (g ++ o :: rest) iter' ->
  (length (g ++ o :: rest) < fuel)%nat ->
  g <> [] ->
  uniform g ->
  hasParity (groupInput g) o = false ->
  (Z.of_nat (length g) < BatchSize d \/ BatchSize d <= 0)%Z ->
  Forall preservesRequest opts ->
  (exists ret t,
      Delete fuel d iter opts = Returned (ret, t) /\
      calls t = groupInput g ::
                calls (snd (DeleteList d opts (o :: rest) (Err iter')))) /\
  (forall st i,
      input st = Some i ->
      hasParity i o = false ->
      loopBody d opts st o =
        let '(err, t) := deleteBatch d i (objects st) (trace st) in
        mkDeleteState (errs st ++ err) [o]
          (Some (mkDeleteObjectsInput (Bucket (Object o)) (MFA (Object o))
                   (RequestPayer (Object o))
                   [mkObjectIdentifier (Key (Object o)) (VersionId (Object o))]))
          t).
Proof.
  intros Hy Hf Hg U Hp Hlen Hopts. split.
  - rewrite (Delete_yields d opts iter iter' _ fuel Hy Hf),
            !(DeleteList_preserving d opts _ _ Hopts).
    destruct (DeleteList_spec d (g ++ o :: rest) (Err iter'))
      as (t1 & t2 & last & -> & Hc & _).
    destruct (DeleteList_spec d (o :: rest) (Err iter'))
      as (u1 & u2 & last' & -> & Hc' & _).
    eexists _, _. split; [reflexivity|].
    cbn [snd]. rewrite Hc, Hc'.
    now rewrite (batchesFrom_break _ g rest o Hg U Hp Hlen).
  - intros st i Hi Hpi. rewrite (loopBody_preserving d opts Hopts).
    exact (loopBody_parity_break d st i o Hi Hpi).
Qed.

(** Buckets [A, A, B] under batch size 1000: first {A,A}, then {B}. *)
Lemma parity_break_A_A_B :
  exists ret t,
    Delete 4 (mkBatchDelete okClient 1000)
           (staticIterator [plain "A" "k1"; plain "A" "k2"; plain "B" "k3"]) [] =
      Returned (ret, t) /\
    calls t =
      [mkDeleteObjectsInput (Some "A") None ""
         [mkObjectIdentifier (Some "k1") None; mkObjectIdentifier (Some "k2") None];
       mkDeleteObjectsInput (Some "B") None ""
         [mkObjectIdentifier (Some "k3") None]].
Proof.
  destruct (parity_break_flushes_and_reseeds (mkBatchDelete okClient 1000)
              (staticIterator [plain "A" "k1"; plain "A" "k2"; plain "B" "k3"])
              (mkDeleteObjectsIterator
                 [plain "A" "k1"; plain "A" "k2"; plain "B" "k3"] 3 true)
              [plain "A" "k1"; plain "A" "k2"] [] (plain "B" "k3") 4 [])
    as ((ret & t & E & Hc) & _).
  - apply (staticIterator_yields
             [plain "A" "k1"; plain "A" "k2"; plain "B" "k3"]).
    reflexivity.
  - simpl. lia.
  - discriminate.
  - intros o1 o2 [<- | [<- | []]] [<- | [<- | []]]; repeat split.
  - reflexivity.
  - left. simpl. lia.
  - constructor.
  - exists ret, t. split; [exact E | exact Hc].
Defined.

(** Why the options must leave the request alone: buckets [A, A, B] under
    batch size 1000 with an option that sets the bucket to X give four
    calls, of 0, 1, 1 and 1 objects, and not the two calls {A,A} and {B}. *)
Lemma parity_break_under_bucket_option :
  (exists ret t,
      Delete 4 (mkBatchDelete okClient 1000)
             (staticIterator [plain "A" "k1"; plain "A" "k2"; plain "B" "k3"])
             [withBucket "X"] = Returned (ret, t) /\
      callSizes t = [0; 1; 1; 1]%nat) /\
  ~ (exists ret t,
        Delete 4 (mkBatchDelete okClient 1000)
               (staticIterator [plain "A" "k1"; plain "A" "k2"; plain "B" "k3"])
               [withBucket "X"] = Returned (ret, t) /\
        calls t =
          [groupInput [plain "A" "k1"; plain "A" "k2"];
           groupInput [plain "B" "k3"]]).
Proof.
  split.
  - eexists _, _. split; [vm_compute; reflexivity | reflexivity].
  - intros (ret & t & E & Hc). vm_compute in E. injection E as _ <-.
    vm_compute in Hc. discriminate.
Defined.

(** ** Hooks *)



(** ** Failures of a call *)

(** No error comes from the hooks when each of them succeeds. *)
Lemma runAfter_quiet (objs : list BatchDeleteObject) :
  (forall o hook t', In o objs -> After o = Some hook -> hook t' = None) ->
  forall es t, fst (runAfter objs es t) = es.
Proof.
  induction objs as [|o objs IH]; intros Hq es t; simpl; [reflexivity|].
  assert (Hq' : forall o' hook t',
             In o' objs -> After o' = Some hook -> hook t' = None)
    by (intros o' hook t' Ho'; apply Hq; now right).
  destruct (After o) as [hook|] eqn:Ehook.
  - rewrite (Hq o hook t (or_introl eq_refl) Ehook). now apply IH.
  - now apply IH.
Qed.

Lemma deleteBatch_quiet (d : BatchDelete) (i : DeleteObjectsInput)
    (objs : list BatchDeleteObject) (t : Trace) :
  (forall o hook t', In o objs -> After o = Some hook -> hook t' = None) ->
  fst (deleteBatch d i objs t) = callErrors i (Client d t i).
Proof. intros Hq. unfold deleteBatch. now apply runAfter_quiet. Qed.






(** ** The returned value *)

Lemma errorsOf_resultOf (es : list Error) : errorsOf (resultOf es) = es.
Proof. now destruct es. Qed.

Lemma afterLoop_trace (d : BatchDelete) (st : DeleteState) (e e' : option error) :
  snd (afterLoop d st e) = snd (afterLoop d st e').
Proof.
  unfold afterLoop. destruct (input st) as [i|]; [|reflexivity].
  destruct (0 <? length (Delete_Objects i))%nat; [|reflexivity].
  now destruct (deleteBatch d i (objects st) (trace st)).
Qed.

(** The run with the iterator's error [e] next to the run without it: the
    same events, and the same errors but for the one recorded for [e]
    between those of the loop and those of the last flush. *)
Lemma DeleteList_with_error (d : BatchDelete) (l : list BatchDeleteObject)
    (e : option error) :
  exists t1 t2,
    DeleteList d [] l e =
      (resultOf (flat_map eventErrors t1 ++ iterError e ++ flat_map eventErrors t2),
       t1 ++ t2) /\
    DeleteList d [] l None =
      (resultOf (flat_map eventErrors t1 ++ flat_map eventErrors t2), t1 ++ t2) /\
    t1 = trace (fold_left (loopBody d []) l initialState) /\
    calls t2 =
      map groupInput
        (batchesFrom (BatchSize d)
           (objects (fold_left (loopBody d []) l initialState)) []) /\
    calls (t1 ++ t2) = map groupInput (batchesFrom (BatchSize d) [] l).
Proof.
  destruct (loop_spec d l initialState initialState_coherent)
    as (t1 & Ht & He & Hc & Hb & _).
  change (objects initialState) with (@nil BatchDeleteObject) in Hb.
  change (trace initialState ++ t1) with t1 in Ht.
  change (errs initialState ++ flat_map eventErrors t1)
    with (flat_map eventErrors t1) in He.
  destruct (afterLoop_spec d _ e Hc) as (t2 & E2 & Hc2 & _).
  destruct (afterLoop_spec d _ None Hc) as (t2' & E2' & _).
  assert (t2' = t2) as ->.
  { pose proof (afterLoop_trace d (fold_left (loopBody d []) l initialState)
                  None e) as Hs.
    rewrite E2, E2' in Hs. simpl in Hs. now apply app_inv_head in Hs. }
  exists t1, t2. unfold DeleteList. rewrite E2, E2', Ht, He.
  repeat split; auto.
  rewrite calls_app, Hc2. symmetry. exact Hb.
Qed.



(** ** An iterator that stops with an error *)

(** C8.  The iterator yields [l] and then stops with the error [e].  Then
    [Delete] issues the very calls and hook runs of the run without that
    error, so the open partial batch is still executed and every yielded
    candidate is in some call; and its errors are those of that run with
    exactly one more, holding [e] with nil bucket and nil key, placed after
    the errors of the loop's batches and before those of the last flush. *)
Theorem iterator_error_adds_one_error {I : Type} `{BatchDeleteIterator I}
    (d : BatchDelete) (iter iter' : I) (l : list BatchDeleteObject) (fuel : nat)
    (e : error) :
  yields iter l iter' ->
  (length l < fuel)%nat ->
  Err iter' = Some e ->
  exists ret t1 t2,
    Delete fuel d iter [] = Returned (ret, t1 ++ t2) /\
    errorsOf ret =
      flat_map eventErrors t1 ++ newError (Some e) None None :: flat_map eventErrors t2 /\
    DeleteList d [] l None =
      (resultOf (flat_map eventErrors t1 ++ flat_map eventErrors t2), t1 ++ t2) /\
    t1 = trace (fold_left (loopBody d []) l initialState) /\
    errs (fold_left (loopBody d []) l initialState) = flat_map eventErrors t1 /\
    calls t2 =
      match objects (fold_left (loopBody d []) l initialState) with
      | [] => []
      | o :: g => [groupInput (o :: g)]
      end /\
    exists gs, calls (t1 ++ t2) = map groupInput gs /\ concat gs = l.
Proof.
  intros Hy Hf He.
  rewrite (Delete_yields d [] iter iter' l fuel Hy Hf), He.
  destruct (DeleteList_with_error d l (Some e))
    as (t1 & t2 & -> & E0 & Ht1 & Hc2 & Hc).
  eexists _, t1, t2. split; [reflexivity|].
  split; [now rewrite errorsOf_resultOf|].
  split; [exact E0|]. split; [exact Ht1|]. split; [|split].
  - destruct (loop_spec d l initialState initialState_coherent)
      as (u & Hu & Hes & _).
    simpl in Hu, Hes. congruence.
  - rewrite Hc2. now destruct (objects _).
  - exists (batchesFrom (BatchSize d) [] l).
    split; [exact Hc | apply batchesFrom_concat].
Qed.

(** A listing of one page of three keys whose second page fails, batch size
    2, and a client whose first call fails: the errors are the two of the
    first batch, then the one of the listing, and the third key is still
    sent. *)
Lemma iterator_error_example :
  exists ret t,
    Delete 4 (mkBatchDelete failFirstClient 2) brokenListing [] =
      Returned (ret, t) /\
    errorsOf ret =
      [newError (Some (ErrOpaque "timeout")) (Some "A") (Some "k1");
       newError (Some (ErrOpaque "timeout")) (Some "A") (Some "k2");
       newError (Some (ErrOpaque "listing failed")) None None] /\
    calls t =
      [mkDeleteObjectsInput (Some "A") None ""
         [mkObjectIdentifier (Some "k1") None; mkObjectIdentifier (Some "k2") None];
       mkDeleteObjectsInput (Some "A") None ""
         [mkObjectIdentifier (Some "k3") None]].
Proof.
  destruct (iterator_error_adds_one_error (mkBatchDelete failFirstClient 2)
              brokenListing
              (mkDeleteListIterator (Some "A") (mkPaginator []) []
                 (Some (ErrOpaque "listing failed")))
              [plain "A" "k1"; plain "A" "k2"; plain "A" "k3"] 4
              (ErrOpaque "listing failed"))
    as (ret & t1 & t2 & E & Herrs & _).
  - repeat (eapply yields_more; [reflexivity | reflexivity |]).
    apply yields_stop. reflexivity.
  - simpl. lia.
  - reflexivity.
  - exists ret, (t1 ++ t2). split; [exact E|].
    clear Herrs. remember (t1 ++ t2) as t eqn:Et. clear Et.
    vm_compute in E. injection E as <- <-.
    split; reflexivity.
Defined.

(** ** The constructor's batch size *)

Lemma batchesFrom_unbounded (B : Z) (l : list BatchDeleteObject) :
  (B <= 0)%Z -> uniform l -> l <> [] -> batchesFrom B [] l = [l].
Proof.
  intros HB U Hl.
  pose proof (batchesFrom_grow B l [] [] U (or_intror HB)) as E.
  rewrite app_nil_r in E. rewrite E. simpl.
  now destruct l.
Qed.

Lemma NewBatchDeleteWithClient_preserving
    (c : Trace -> DeleteObjectsInput -> CallResult) (batchSize : Z)
    (options : list (BatchDelete -> BatchDelete)) :
  Forall preservesBatchSize options ->
  BatchSize (NewBatchDeleteWithClient c batchSize options) =
    (if (batchSize =? -1)%Z then DefaultBatchSize else batchSize).
Proof.
  intros Hopts. unfold NewBatchDeleteWithClient.
  assert (Hfold : forall svc,
             BatchSize (fold_left (fun svc opt => opt svc) options svc) =
             BatchSize svc).
  { induction Hopts as [|opt options Hopt _ IH]; intros svc; [reflexivity|].
    cbn [fold_left]. now rewrite IH, Hopt. }
  rewrite Hfold. now destruct (batchSize =? -1)%Z.
Qed.

(** C10, amended.  With constructor options, if any, that leave the batch
    size as it is, [NewBatchDeleteWithClient] gives the client the batch
    size 1000 when the argument is -1 and the argument itself otherwise,
    zero and negative values included; so the resulting batch size is 1000
    exactly for the arguments -1 and 1000.  For an argument that is zero or
    negative and not -1, and request options, if any, that leave the bucket,
    MFA, request payer and objects of the request as they are, the size
    bound never triggers: a non-empty run of one parity is sent as one call
    holding all of it. *)
Theorem NewBatchDeleteWithClient_batch_size {I : Type} `{BatchDeleteIterator I}
    (c : Trace -> DeleteObjectsInput -> CallResult) (batchSize : Z)
    (iter iter' : I) (l : list BatchDeleteObject) (fuel : nat)
    (options : list (BatchDelete -> BatchDelete))
    (opts : list (DeleteObjectsInput -> DeleteObjectsInput)) :
  yields iter l iter' ->
  (length l < fuel)%nat ->
  uniform l ->
  l <> [] ->
  Forall preservesBatchSize options ->
  Forall preservesRequest opts ->
  BatchSize (NewBatchDeleteWithClient c batchSize options) =
    (if (batchSize =? -1)%Z then DefaultBatchSize else batchSize) /\
  DefaultBatchSize = 1000%Z /\
  (BatchSize (NewBatchDeleteWithClient c batchSize options) = DefaultBatchSize <->
   batchSize = (-1)%Z \/ batchSize = DefaultBatchSize) /\
  ((batchSize <= 0)%Z -> batchSize <> (-1)%Z ->
   exists ret t,
     Delete fuel (NewBatchDeleteWithClient c batchSize options) iter opts =
       Returned (ret, t) /\
     calls t = [groupInput l] /\
     callSizes t = [length l]).
Proof.
  intros Hy Hf U Hl Hoptions Hopts.
  pose proof (NewBatchDeleteWithClient_preserving c batchSize options Hoptions) as E.
  split; [exact E|]. split; [reflexivity|]. split.
  - rewrite E. destruct (batchSize =? -1)%Z eqn:Eb.
    + apply Z.eqb_eq in Eb. tauto.
    + apply Z.eqb_neq in Eb. tauto.
  - intros Hle Hne.
    rewrite (Delete_yields _ opts iter iter' l fuel Hy Hf),
            (DeleteList_preserving _ opts l _ Hopts).
    destruct (DeleteList_spec (NewBatchDeleteWithClient c batchSize options) l
                (Err iter'))
      as (t1 & t2 & last & -> & Hc & _).
    assert (Hc' : calls (t1 ++ t2) = [groupInput l]).
    { rewrite Hc, E.
      replace (batchSize =? -1)%Z with false by (symmetry; now apply Z.eqb_neq).
      now rewrite batchesFrom_unbounded. }
    eexists _, _. split; [reflexivity|]. split; [exact Hc'|].
    unfold callSizes. rewrite Hc'. simpl. now rewrite groupInput_length.
Qed.

(** Batch size 0: five candidates of one bucket go out in one call of five. *)
Lemma batch_size_zero_is_unbounded :
  BatchSize (NewBatchDeleteWithClient okClient 0 []) = 0%Z /\
  exists ret t,
    Delete 6 (NewBatchDeleteWithClient okClient 0 [])
           (staticIterator (repeat (plain "A" "k") 5)) [] = Returned (ret, t) /\
    callSizes t = [5%nat].
Proof.
  destruct (NewBatchDeleteWithClient_batch_size okClient 0
              (staticIterator (repeat (plain "A" "k") 5))
              (mkDeleteObjectsIterator (repeat (plain "A" "k") 5) 5 true)
              (repeat (plain "A" "k") 5) 6 [] [])
    as (E & _ & _ & Hrun).
  - apply (staticIterator_yields (repeat (plain "A" "k") 5)). reflexivity.
  - simpl. lia.
  - intros o1 o2 H1 H2. apply repeat_spec in H1, H2. subst. repeat split.
  - discriminate.
  - constructor.
  - constructor.
  - split; [exact E|].
    destruct Hrun as (ret & t & Er & _ & Hs); [lia | lia |].
    exists ret, t. split; [exact Er | exact Hs].
Defined.

(** At the argument 1000 the batch size is the default although the
    argument is not -1: the default is not a sign of the argument -1. *)
Lemma batch_size_1000_is_not_minus_one :
  BatchSize (NewBatchDeleteWithClient okClient 1000 []) = DefaultBatchSize /\
  ~ (BatchSize (NewBatchDeleteWithClient okClient 1000 []) = DefaultBatchSize <->
     (1000 = -1)%Z).
Proof.
  split; [reflexivity|]. intros [Hto _].
  specialize (Hto eq_refl). discriminate.
Defined.

(** ** The paginated iterator *)

Section Paginated.

Variable bucket : option string.
Variable err : option error.

(** Buffered objects after the current one are yielded without a fetch. *)
Lemma DeleteListIterator_drain (P : ListObjectsV2Paginator)
    (L : list BatchDeleteObject) (iter' : DeleteListIterator) :
  (forall objs0, (length objs0 <= 1)%nat ->
                 yields (mkDeleteListIterator bucket P objs0 err) L iter') ->
  forall objs,
    yields (mkDeleteListIterator bucket P objs err)
           (map (listedCandidate bucket) (tl objs) ++ L) iter'.
Proof.
  intros Hlast objs. induction objs as [|x rest IH].
  - apply Hlast. simpl. lia.
  - destruct rest as [|y rest'].
    + apply Hlast. simpl. lia.
    + cbn [tl map app].
      apply yields_more
        with (iter1 := mkDeleteListIterator bucket P (y :: rest') err).
      * reflexivity.
      * reflexivity.
      * exact IH.
Qed.

(** The iterator yields the objects of the leading pages that have
    contents, and stops at the first answer that is missing, failed or
    empty; only a failed fetch sets its error. *)
Lemma DeleteListIterator_yields (tail : list (ListObjectsV2Output + error)) :
  stopsAt tail ->
  forall pages,
    Forall (fun p => Contents p <> []) pages ->
    forall objs,
      yields
        (mkDeleteListIterator bucket (mkPaginator (map inl pages ++ tail)) objs err)
        (map (listedCandidate bucket) (tl objs ++ flat_map Contents pages))
        (mkDeleteListIterator bucket (mkPaginator (tl tail)) [] (errAfter err tail)).
Proof.
  intros Hstop pages Hpages.
  induction Hpages as [|p pages Hp _ IH]; intros objs.
  - cbn [map flat_map app]. rewrite app_nil_r.
    rewrite <- (app_nil_r (map _ (tl objs))).
    apply DeleteListIterator_drain. intros objs0 Hlen.
    apply yields_stop.
    destruct tail as [|[page|e] more]; simpl in Hstop;
      destruct objs0 as [|x [|y r]]; simpl in Hlen; try lia;
        cbn; unfold DeleteListIterator_Next; cbn; rewrite ?Hstop; reflexivity.
  - cbn [map flat_map app]. rewrite map_app.
    apply DeleteListIterator_drain. intros objs0 Hlen.
    destruct (Contents p) as [|c cs] eqn:Ep; [congruence|].
    cbn [map app].
    apply yields_more
      with (iter1 := mkDeleteListIterator bucket
                       (mkPaginator (map inl pages ++ tail)) (c :: cs) err).
    + destruct objs0 as [|x [|y r]]; simpl in Hlen; try lia;
        cbn; unfold DeleteListIterator_Next; cbn; rewrite Ep; reflexivity.
    + reflexivity.
    + exact (IH (c :: cs)).
Qed.

End Paginated.

(** C9, on the code.  A listing in three pages whose second page is empty:
    [Next] yields the object of the first page, then returns false with no
    error, although the third page and its object are still to come; a
    [Delete] over it removes the first object only and returns nil. *)
Theorem DeleteListIterator_stops_at_an_empty_page :
  yields gappedListing [listedCandidate (Some "A") (mkS3Object (Some "k1"))]
         (mkDeleteListIterator (Some "A")
            (mkPaginator [inl (mkListObjectsV2Output [mkS3Object (Some "k2")])])
            [] None) /\
  HasMorePages
    (mkPaginator [inl (mkListObjectsV2Output [mkS3Object (Some "k2")])]) = true /\
  Delete 10 (mkBatchDelete okClient 1000) gappedListing [] =
    Returned (None,
              [EvDeleteObjects
                 (mkDeleteObjectsInput (Some "A") None ""
                    [mkObjectIdentifier (Some "k1") None])
                 (CallOk (mkDeleteObjectsOutput []))]).
Proof.
  split; [|split].
  - apply (DeleteListIterator_yields (Some "A") None
             [inl (mkListObjectsV2Output []);
              inl (mkListObjectsV2Output [mkS3Object (Some "k2")])]
             eq_refl
             [mkListObjectsV2Output [mkS3Object (Some "k1")]]).
    repeat constructor. discriminate.
  - reflexivity.
  - vm_compute. reflexivity.
Qed.

(** * More of the package *)

Lemma option_eq_dec_string (p q : option string) : {p = q} + {p <> q}.
Proof. decide equality. apply string_dec. Qed.

Lemma string_app_assoc (a b c : string) : ((a ++ b) ++ c = a ++ b ++ c)%string.
Proof. induction a as [|x a IH]; simpl; [reflexivity | now rewrite IH]. Qed.

Lemma string_app_nil_r (a : string) : (a ++ "" = a)%string.
Proof. induction a as [|x a IH]; simpl; [reflexivity | now rewrite IH]. Qed.

(** ** Parity, as a relation *)

(** X1.  [hasParity] holds exactly when the request and the candidate have
    the same bucket, the same MFA token and the same request payer, where a
    nil pointer equals only a nil pointer (and not a pointer to the empty
    string); keys, version identifiers and the objects already in the
    request play no part.  The request initialised from a candidate has
    parity with that candidate. *)
Theorem hasParity_is_equality_of_flags (i : DeleteObjectsInput) (o : BatchDeleteObject) :
  (hasParity i o = true <->
   in_Bucket i = Bucket (Object o) /\
   in_MFA i = MFA (Object o) /\
   in_RequestPayer i = RequestPayer (Object o)) /\
  (hasParity i o = false <->
   in_Bucket i <> Bucket (Object o) \/
   in_MFA i <> MFA (Object o) \/
   in_RequestPayer i <> RequestPayer (Object o)) /\
  hasParity (initDeleteObjectsInput (Object o)) o = true.
Proof.
  split; [apply hasParity_true|]. split; [|apply hasParity_init].
  pose proof (hasParity_true i o) as Ht.
  destruct (hasParity i o); split; intro Hf; try discriminate; try reflexivity.
  - exfalso. destruct Ht as [Ht _]. destruct (Ht eq_refl) as (Eb & Em & Er).
    destruct Hf as [Hf | [Hf | Hf]]; contradiction.
  - assert (Hn : ~ (in_Bucket i = Bucket (Object o) /\
                    in_MFA i = MFA (Object o) /\
                    in_RequestPayer i = RequestPayer (Object o)))
      by (intro Hall; apply Ht in Hall; discriminate).
    destruct (option_eq_dec_string (in_Bucket i) (Bucket (Object o))) as [Eb|Eb];
      [|now left].
    destruct (option_eq_dec_string (in_MFA i) (MFA (Object o))) as [Em|Em];
      [|now right; left].
    destruct (string_dec (in_RequestPayer i) (RequestPayer (Object o))) as [Er|Er];
      [|now right; right].
    exfalso. apply Hn. auto.
Qed.

(** ** Coverage, for any batch size *)

Lemma groupInput_objects (g : list BatchDeleteObject) :
  Delete_Objects (groupInput g) = map identOf g.
Proof. now destruct g. Qed.

Lemma groups_identifiers (gs : list (list BatchDeleteObject)) :
  flat_map Delete_Objects (map groupInput gs) = map identOf (concat gs).
Proof.
  induction gs as [|g gs IH]; simpl; [reflexivity|].
  now rewrite IH, groupInput_objects, map_app.
Qed.

Lemma batchesFrom_nonempty (B : Z) (l : list BatchDeleteObject) :
  forall g, Forall (fun g' => g' <> []) (batchesFrom B g l).
Proof.
  induction l as [|o l IH]; intros g; simpl.
  - destruct g; constructor; [discriminate | constructor].
  - destruct (joins g o) eqn:Hj.
    + destruct (_ =? _)%Z; [constructor; [now destruct g | apply IH] | apply IH].
    + constructor; [|apply IH]. intros ->. discriminate.
Qed.

Lemma batchesFrom_parity (B : Z) (l : list BatchDeleteObject) :
  forall g,
    (forall x, In x g -> hasParity (groupInput g) x = true) ->
    Forall (fun g' => forall x, In x g' -> hasParity (groupInput g') x = true)
           (batchesFrom B g l).
Proof.
  induction l as [|o l IH]; intros g Hpar; simpl.
  - destruct g; constructor; [exact Hpar | constructor].
  - destruct (joins g o) eqn:Hj.
    + pose proof (parity_snoc g o Hpar Hj) as Hpar'.
      destruct (_ =? _)%Z; [constructor; [exact Hpar'|]|]; apply IH; auto.
    + constructor; [exact Hpar|]. apply IH.
      intros x [<- | []]. apply hasParity_true. simpl. auto.
Qed.

Lemma nonempty_groups_count (gs : list (list BatchDeleteObject)) :
  Forall (fun g => g <> []) gs -> (length gs <= length (concat gs))%nat.
Proof.
  induction 1 as [|g gs Hg _ IH]; simpl; [lia|].
  rewrite length_app. destruct g; [congruence | simpl; lia].
Qed.

Lemma bounded_groups_count (b : nat) (gs : list (list BatchDeleteObject)) :
  Forall (fun g => (length g <= b)%nat) gs ->
  (length (concat gs) <= b * length gs)%nat.
Proof.
  induction 1 as [|g gs Hg _ IH]; simpl; [lia|].
  rewrite length_app. lia.
Qed.

(** X2.  Whatever the batch size (zero and negative sizes included) and
    whatever the parity of the candidates, the identifiers carried by the
    [DeleteObjects] calls of a run, taken call after call, are exactly the
    identifiers of the yielded candidates in the order yielded: no candidate
    is dropped, sent twice or reordered, and no call is sent empty. *)
Theorem Delete_sends_every_candidate_once {I : Type} `{BatchDeleteIterator I}
    (d : BatchDelete) (iter iter' : I) (l : list BatchDeleteObject) (fuel : nat) :
  yields iter l iter' ->
  (length l < fuel)%nat ->
  exists ret t,
    Delete fuel d iter [] = Returned (ret, t) /\
    flat_map Delete_Objects (calls t) = map identOf l /\
    Forall (fun i => Delete_Objects i <> []) (calls t).
Proof.
  intros Hy Hf.
  rewrite (Delete_yields d [] iter iter' l fuel Hy Hf).
  destruct (DeleteList_spec d l (Err iter')) as (t1 & t2 & last & -> & Hc & _).
  eexists _, _. split; [reflexivity|]. rewrite Hc. split.
  - now rewrite groups_identifiers, batchesFrom_concat.
  - apply Forall_map.
    generalize (batchesFrom_nonempty (BatchSize d) l []).
    apply Forall_impl. intros g Hg. rewrite groupInput_objects.
    destruct g; [congruence | discriminate].
Qed.

(** Four candidates of buckets A, A, B, A under batch size -3. *)
Lemma negative_batch_size_sends_everything :
  exists ret t,
    Delete 5 (mkBatchDelete okClient (-3))
           (staticIterator [plain "A" "1"; plain "A" "2"; plain "B" "3";
                            plain "A" "4"]) [] = Returned (ret, t) /\
    flat_map Delete_Objects (calls t) =
      [mkObjectIdentifier (Some "1") None; mkObjectIdentifier (Some "2") None;
       mkObjectIdentifier (Some "3") None; mkObjectIdentifier (Some "4") None] /\
    callSizes t = [2; 1; 1]%nat.
Proof.
  destruct (Delete_sends_every_candidate_once (mkBatchDelete okClient (-3))
              (staticIterator [plain "A" "1"; plain "A" "2"; plain "B" "3";
                               plain "A" "4"])
              (mkDeleteObjectsIterator
                 [plain "A" "1"; plain "A" "2"; plain "B" "3"; plain "A" "4"]
                 4 true)
              [plain "A" "1"; plain "A" "2"; plain "B" "3"; plain "A" "4"] 5)
    as (ret & t & E & Hids & _).
  - apply (staticIterator_yields
             [plain "A" "1"; plain "A" "2"; plain "B" "3"; plain "A" "4"]).
    reflexivity.
  - simpl. lia.
  - exists ret, t. split; [exact E|]. split; [exact Hids|].
    clear Hids. vm_compute in E. injection E as _ <-. reflexivity.
Defined.

(** X3.  With a batch size [b] of at least 1 and [n] yielded candidates of
    any parity, the number of [DeleteObjects] calls lies between ceil(n/b)
    and [n]. *)
Theorem call_count_bounds {I : Type} `{BatchDeleteIterator I}
    (d : BatchDelete) (iter iter' : I) (l : list BatchDeleteObject) (fuel : nat) :
  yields iter l iter' ->
  (length l < fuel)%nat ->
  (1 <= BatchSize d)%Z ->
  exists ret t,
    Delete fuel d iter [] = Returned (ret, t) /\
    ((length l + Z.to_nat (BatchSize d) - 1) / Z.to_nat (BatchSize d)
       <= length (calls t))%nat /\
    (length (calls t) <= length l)%nat.
Proof.
  intros Hy Hf HB.
  rewrite (Delete_yields d [] iter iter' l fuel Hy Hf).
  destruct (DeleteList_spec d l (Err iter')) as (t1 & t2 & last & -> & Hc & _).
  eexists _, _. split; [reflexivity|]. rewrite Hc, length_map.
  set (gs := batchesFrom (BatchSize d) [] l).
  assert (Hcat : concat gs = l) by apply batchesFrom_concat.
  split.
  - assert (Hb : Forall (fun g => (length g <= Z.to_nat (BatchSize d))%nat) gs).
    { generalize (batchesFrom_good (BatchSize d) l HB []
                    ltac:(simpl; lia) ltac:(intros x [])).
      apply Forall_impl. intros g (_ & Hlen & _). lia. }
    apply bounded_groups_count in Hb. rewrite Hcat in Hb.
    apply Nat.lt_succ_r. apply Nat.Div0.div_lt_upper_bound. lia.
  - pose proof (nonempty_groups_count gs
                  (batchesFrom_nonempty (BatchSize d) l [])) as Hn.
    now rewrite Hcat in Hn.
Qed.

(** Five candidates alternating between two buckets, batch size 2: five
    calls, within the bounds 3 and 5. *)
Lemma call_count_bounds_example :
  exists ret t,
    Delete 6 (mkBatchDelete okClient 2)
           (staticIterator [plain "A" "1"; plain "B" "2"; plain "A" "3";
                            plain "B" "4"; plain "A" "5"]) [] = Returned (ret, t) /\
    (3 <= length (calls t) <= 5)%nat.
Proof.
  destruct (call_count_bounds (mkBatchDelete okClient 2)
              (staticIterator [plain "A" "1"; plain "B" "2"; plain "A" "3";
                               plain "B" "4"; plain "A" "5"])
              (mkDeleteObjectsIterator
                 [plain "A" "1"; plain "B" "2"; plain "A" "3";
                  plain "B" "4"; plain "A" "5"] 5 true)
              [plain "A" "1"; plain "B" "2"; plain "A" "3";
               plain "B" "4"; plain "A" "5"] 6)
    as (ret & t & E & Hlo & Hhi).
  - apply (staticIterator_yields
             [plain "A" "1"; plain "B" "2"; plain "A" "3";
              plain "B" "4"; plain "A" "5"]).
    reflexivity.
  - simpl. lia.
  - simpl. lia.
  - exists ret, t. split; [exact E|]. split; [exact Hlo | exact Hhi].
Defined.

(** ** Batch size 1 *)

Lemma batchesFrom_one (l : list BatchDeleteObject) :
  batchesFrom 1 [] l = map (fun o => [o]) l.
Proof. induction l as [|o l IH]; simpl; [reflexivity | now rewrite IH]. Qed.

(** X4.  With batch size 1 every yielded candidate goes out in a call of
    its own, against its own bucket, MFA and request payer, whatever the
    parity of its neighbours. *)
Theorem batch_size_one_sends_each_alone {I : Type} `{BatchDeleteIterator I}
    (d : BatchDelete) (iter iter' : I) (l : list BatchDeleteObject) (fuel : nat) :
  yields iter l iter' ->
  (length l < fuel)%nat ->
  BatchSize d = 1%Z ->
  exists ret t,
    Delete fuel d iter [] = Returned (ret, t) /\
    calls t =
      map (fun o =>
             mkDeleteObjectsInput (Bucket (Object o)) (MFA (Object o))
               (RequestPayer (Object o))
               [mkObjectIdentifier (Key (Object o)) (VersionId (Object o))])
          l.
Proof.
  intros Hy Hf HB.
  rewrite (Delete_yields d [] iter iter' l fuel Hy Hf).
  destruct (DeleteList_spec d l (Err iter')) as (t1 & t2 & last & -> & Hc & _).
  eexists _, _. split; [reflexivity|].
  now rewrite Hc, HB, batchesFrom_one, map_map.
Qed.

(** Two candidates of bucket A under batch size 1: two calls of one. *)
Lemma batch_size_one_example :
  exists ret t,
    Delete 3 (mkBatchDelete okClient 1)
           (staticIterator [plain "A" "k1"; plain "A" "k2"]) [] = Returned (ret, t) /\
    calls t =
      [mkDeleteObjectsInput (Some "A") None "" [mkObjectIdentifier (Some "k1") None];
       mkDeleteObjectsInput (Some "A") None "" [mkObjectIdentifier (Some "k2") None]].
Proof.
  destruct (batch_size_one_sends_each_alone (mkBatchDelete okClient 1)
              (staticIterator [plain "A" "k1"; plain "A" "k2"])
              (mkDeleteObjectsIterator [plain "A" "k1"; plain "A" "k2"] 2 true)
              [plain "A" "k1"; plain "A" "k2"] 3)
    as (ret & t & E & Hc).
  - apply (staticIterator_yields [plain "A" "k1"; plain "A" "k2"]). reflexivity.
  - simpl. lia.
  - reflexivity.
  - exists ret, t. split; [exact E | exact Hc].
Defined.

(** ** Runs of one parity are batched one by one *)

Lemma breaks_not_joins (g : list BatchDeleteObject) (o : BatchDeleteObject) :
  g <> [] -> (forall a, In a g -> ~ sameFlags a o) -> joins g o = false.
Proof.
  intros Hg Hbr. destruct g as [|o0 r]; [congruence|]. cbn [joins].
  destruct (hasParity (groupInput (o0 :: r)) o) eqn:Hp; [|reflexivity].
  apply hasParity_group in Hp. exfalso. apply (Hbr o0); [now left | exact Hp].
Qed.

Lemma batchesFrom_run (b : nat) (rest s : list BatchDeleteObject) :
  (0 < b)%nat ->
  forall g,
    (length g < b)%nat ->
    uniform (g ++ s) ->
    (forall o r, rest = o :: r -> forall a, In a (g ++ s) -> ~ sameFlags a o) ->
    map (@length _) (batchesFrom (Z.of_nat b) g (s ++ rest)) =
    chunkSizes b (length g + length s) ++
    map (@length _) (batchesFrom (Z.of_nat b) [] rest).
Proof.
  intros Hb. induction s as [|x s IH]; intros g Hlen U Hbr.
  - cbn [app length]. rewrite Nat.add_0_r, app_nil_r in *.
    destruct g as [|o0 gr].
    + now rewrite chunkSizes_zero.
    + rewrite chunkSizes_small by (simpl in *; lia).
      destruct rest as [|o r]; [reflexivity|].
      cbn [batchesFrom].
      rewrite (breaks_not_joins (o0 :: gr) o) by
        (try discriminate; exact (Hbr o r eq_refl)).
      cbn [joins app map].
      replace (Z.of_nat (length [o]) =? Z.of_nat b)%Z with false; [reflexivity|].
      symmetry. apply Z.eqb_neq. simpl in *. lia.
  - cbn [app batchesFrom].
    assert (Hj : joins g x = true).
    { apply uniform_joins. intros a c Ha Hc.
      apply U; apply in_app_or in Ha, Hc; apply in_or_app; simpl in *; tauto. }
    rewrite Hj.
    assert (Hl : length (g ++ [x]) = S (length g))
      by (rewrite length_app; simpl; lia).
    assert (U' : uniform ((g ++ [x]) ++ s)) by now rewrite <- app_assoc.
    assert (Hbr' : forall o r, rest = o :: r ->
                               forall a, In a ((g ++ [x]) ++ s) -> ~ sameFlags a o).
    { intros o r Er a Ha. apply (Hbr o r Er). now rewrite <- app_assoc in Ha. }
    destruct (Z.of_nat (length (g ++ [x])) =? Z.of_nat b)%Z eqn:E.
    + apply Z.eqb_eq in E. apply Nat2Z.inj in E. cbn [map].
      rewrite (IH []); [| simpl; lia | |].
      * rewrite E. cbn [length Nat.add].
        replace (length g + S (length s))%nat with (b + length s)%nat by lia.
        now rewrite chunkSizes_full by lia.
      * intros a c Ha Hc. apply U'; apply in_or_app; now right.
      * intros o r Er a Ha. apply (Hbr' o r Er). apply in_or_app. now right.
    + apply Z.eqb_neq in E.
      rewrite (IH (g ++ [x])); [| | exact U' | exact Hbr'].
      * do 2 f_equal. simpl. lia.
      * assert (length (g ++ [x]) <> b) by (intros F; apply E; now rewrite F).
        lia.
Qed.

Lemma batchesFrom_runs (b : nat) (runs : list (list BatchDeleteObject)) :
  (0 < b)%nat ->
  Forall (fun r => r <> [] /\ uniform r) runs ->
  breaksBetween runs ->
  map (@length _) (batchesFrom (Z.of_nat b) [] (concat runs)) =
  flat_map (fun r => chunkSizes b (length r)) runs.
Proof.
  intros Hb Hruns. induction Hruns as [|r runs (Hr & Ur) Hrest IH]; intros Hbr.
  - reflexivity.
  - cbn [concat flat_map]. destruct Hbr as (Hnext & Hbr).
    rewrite (batchesFrom_run b (concat runs) r Hb []); [| simpl; lia | exact Ur |].
    + now rewrite IH.
    + intros o rr Eo a Ha. destruct runs as [|r' runs']; [discriminate|].
      inversion Hrest as [|? ? (Hr' & _) _]; subst.
      destruct r' as [|c r'']; [congruence|].
      cbn [concat app] in Eo. injection Eo as <- _.
      apply (Hnext a c); [exact Ha | reflexivity].
Qed.

(** X5.  With a batch size [b] of at least 1, when the yielded candidates
    fall into consecutive runs, each of one parity and each without parity
    with the next, every run is batched on its own: the call sizes are those
    of the first run ([b], ..., [b], remainder), then those of the second
    run, and so on.  A run never shares a call with its neighbour, and a
    partial batch at the end of a run is not filled from the next run. *)
Theorem runs_are_batched_one_by_one {I : Type} `{BatchDeleteIterator I}
    (d : BatchDelete) (iter iter' : I) (runs : list (list BatchDeleteObject))
    (fuel : nat) :
  yields iter (concat runs) iter' ->
  (length (concat runs) < fuel)%nat ->
  (1 <= BatchSize d)%Z ->
  Forall (fun r => r <> [] /\ uniform r) runs ->
  breaksBetween runs ->
  exists ret t,
    Delete fuel d iter [] = Returned (ret, t) /\
    callSizes t =
      flat_map (fun r =>
                  repeat (Z.to_nat (BatchSize d)) (length r / Z.to_nat (BatchSize d)) ++
                  (if (length r mod Z.to_nat (BatchSize d) =? 0)%nat then []
                   else [(length r mod Z.to_nat (BatchSize d))%nat]))
               runs.
Proof.
  intros Hy Hf HB Hruns Hbr.
  rewrite (Delete_yields d [] iter iter' _ fuel Hy Hf).
  destruct (DeleteList_spec d (concat runs) (Err iter'))
    as (t1 & t2 & last & -> & Hc & _).
  eexists _, _. split; [reflexivity|].
  unfold callSizes. rewrite Hc, map_map.
  rewrite (map_ext _ (@length _) groupInput_length).
  replace (BatchSize d) with (Z.of_nat (Z.to_nat (BatchSize d))) at 1 by lia.
  now rewrite batchesFrom_runs by (auto; lia).
Qed.

(** Three of bucket A, then three of bucket B, batch size 2: 2, 1, 2, 1. *)
Lemma runs_example :
  exists ret t,
    Delete 7 (mkBatchDelete okClient 2)
           (staticIterator
              (concat [[plain "A" "1"; plain "A" "2"; plain "A" "3"];
                       [plain "B" "4"; plain "B" "5"; plain "B" "6"]])) [] =
      Returned (ret, t) /\
    callSizes t = [2; 1; 2; 1]%nat.
Proof.
  destruct (runs_are_batched_one_by_one (mkBatchDelete okClient 2)
              (staticIterator
                 (concat [[plain "A" "1"; plain "A" "2"; plain "A" "3"];
                          [plain "B" "4"; plain "B" "5"; plain "B" "6"]]))
              (mkDeleteObjectsIterator
                 (concat [[plain "A" "1"; plain "A" "2"; plain "A" "3"];
                          [plain "B" "4"; plain "B" "5"; plain "B" "6"]]) 6 true)
              [[plain "A" "1"; plain "A" "2"; plain "A" "3"];
               [plain "B" "4"; plain "B" "5"; plain "B" "6"]] 7)
    as (ret & t & E & Hs).
  - apply (staticIterator_yields
             (concat [[plain "A" "1"; plain "A" "2"; plain "A" "3"];
                      [plain "B" "4"; plain "B" "5"; plain "B" "6"]])).
    reflexivity.
  - simpl. lia.
  - simpl. lia.
  - constructor; [split; [discriminate|]
                 | constructor; [split; [discriminate|] | constructor]];
      intros o1 o2 [<- | [<- | [<- | []]]] [<- | [<- | [<- | []]]];
      repeat split.
  - split; [|split; exact I].
    intros a c [<- | [<- | [<- | []]]] Hc; injection Hc as <-;
      intros (Hbk & _); discriminate.
  - exists ret, t. split; [exact E | exact Hs].
Defined.

(** ** The errors of a run whose hooks succeed *)

Section DeterminedErrors.

(** The errors a call records depend on its request only, by [F]. *)
Variable d : BatchDelete.
Variable F : DeleteObjectsInput -> list Error.
Hypothesis HF : forall t i, callErrors i (Client d t i) = F i.

Lemma flush_errs_quiet (g : list BatchDeleteObject) (st : DeleteState) :
  Forall quiet g ->
  errs (flush d g st) = errs st ++ F (groupInput g) /\
  objects (flush d g st) = [].
Proof.
  intros Hq. unfold flush.
  pose proof (deleteBatch_quiet d (groupInput g) g (trace st)) as E.
  destruct (deleteBatch d (groupInput g) g (trace st)) as [es t].
  simpl in *. rewrite E, HF; [auto|].
  intros o hook t' Ho Hh. rewrite Forall_forall in Hq. exact (Hq o Ho hook t' Hh).
Qed.

Lemma loop_errs_quiet (l : list BatchDeleteObject) :
  forall st,
    coherent st ->
    Forall quiet (objects st ++ l) ->
    exists closed,
      errs (fold_left (loopBody d []) l st) =
        errs st ++ flat_map F (map groupInput closed) /\
      batchesFrom (BatchSize d) (objects st) l =
        closed ++
        batchesFrom (BatchSize d) (objects (fold_left (loopBody d []) l st)) [] /\
      Forall quiet (objects (fold_left (loopBody d []) l st)).
Proof.
  induction l as [|o l IH]; intros st Hst Hq.
  - exists []. simpl. rewrite !app_nil_r in *. auto.
  - cbn [fold_left batchesFrom].
    pose proof (loopBody_keeps_coherent d st o Hst) as Hst1.
    assert (Hq1 : Forall quiet ((objects st ++ [o]) ++ l))
      by now rewrite <- app_assoc.
    assert (Hqg : Forall quiet (objects st ++ [o]))
      by (apply Forall_app in Hq1; tauto).
    assert (Hqg0 : Forall quiet (objects st))
      by (apply Forall_app in Hq; tauto).
    assert (Hql : Forall quiet l)
      by (apply Forall_app in Hq1; tauto).
    assert (Hqo : Forall quiet ([o] ++ l))
      by (apply Forall_app in Hq; exact (proj2 Hq)).
    specialize (IH _ Hst1). revert IH.
    rewrite (loopBody_coherent d st o Hst).
    destruct (joins (objects st) o).
    + destruct (Z.of_nat (length (objects st ++ [o])) =? BatchSize d)%Z.
      * destruct (flush_errs_quiet (objects st ++ [o]) st Hqg) as (-> & ->).
        intros IH. destruct (IH Hql) as (closed & -> & -> & Hq').
        exists ((objects st ++ [o]) :: closed). simpl.
        rewrite <- !app_assoc. auto.
      * unfold openWith. cbn [errs objects]. intros IH. exact (IH Hq1).
    + unfold openWith. cbn [errs objects].
      destruct (flush_errs_quiet (objects st) st Hqg0) as (-> & _).
      intros IH. destruct (IH Hqo) as (closed & -> & -> & Hq').
      exists (objects st :: closed). simpl. rewrite <- !app_assoc. auto.
Qed.

Lemma afterLoop_errs_quiet (st : DeleteState) (e : option error) :
  coherent st ->
  Forall quiet (objects st) ->
  fst (afterLoop d st e) =
    resultOf (errs st ++ iterError e ++
              flat_map F (map groupInput (batchesFrom (BatchSize d) (objects st) []))).
Proof.
  intros Hst Hq. unfold coherent in Hst. unfold afterLoop. rewrite Hst.
  assert (Hes : match e with
                | Some e0 => errs st ++ [newError (Some e0) None None]
                | None => errs st
                end = errs st ++ iterError e)
    by (destruct e; simpl; rewrite ?app_nil_r; reflexivity).
  rewrite Hes. clear Hes Hst.
  destruct (objects st) as [|o0 g] eqn:Eobjs.
  - cbv beta iota. cbn [fst batchesFrom map flat_map]. rewrite !app_nil_r.
    apply resultOf_length.
  - rewrite groupInput_length. cbn [length Nat.ltb Nat.leb].
    pose proof (deleteBatch_quiet d (groupInput (o0 :: g)) (o0 :: g) (trace st)) as Eq.
    destruct (deleteBatch d (groupInput (o0 :: g)) (o0 :: g) (trace st)) as [es t].
    cbv beta iota. cbn [fst batchesFrom map flat_map].
    simpl in Eq. rewrite Eq, HF.
    + rewrite app_nil_r, <- app_assoc. apply resultOf_length.
    + intros o hook t' Ho Hh. rewrite Forall_forall in Hq. exact (Hq o Ho hook t' Hh).
Qed.

(** The errors of the whole run: those of the groups closed in the loop,
    then the iterator's, then those of the last group. *)
Lemma DeleteList_errs_quiet (l : list BatchDeleteObject) (e : option error) :
  Forall quiet l ->
  exists closed last,
    fst (DeleteList d [] l e) =
      resultOf (flat_map F (map groupInput closed) ++ iterError e ++
                flat_map F (map groupInput last)) /\
    batchesFrom (BatchSize d) [] l = closed ++ last /\
    last = batchesFrom (BatchSize d)
             (objects (fold_left (loopBody d []) l initialState)) [] /\
    errs (fold_left (loopBody d []) l initialState) =
      flat_map F (map groupInput closed).
Proof.
  intros Hq. unfold DeleteList.
  destruct (loop_errs_quiet l initialState initialState_coherent Hq)
    as (closed & He & Hb & Hq').
  destruct (loop_spec d l initialState initialState_coherent)
    as (t1 & _ & _ & Hc & _).
  rewrite (afterLoop_errs_quiet _ e Hc Hq'), He.
  exists closed, (batchesFrom (BatchSize d)
                    (objects (fold_left (loopBody d []) l initialState)) []).
  split; [reflexivity|]. split; [exact Hb|]. split; reflexivity.
Qed.

End DeterminedErrors.

Lemma flat_map_nothing {A B : Type} (l : list A) :
  flat_map (fun _ : A => @nil B) l = [].
Proof. induction l; simpl; auto. Qed.

(** X6.  When every call succeeds without per-key errors and no hook fails,
    the only error [Delete] can report is the iterator's: it returns nil if
    the iterator stopped without error, and otherwise a [BatchError] holding
    exactly one [Error], the iterator's, with nil bucket and nil key. *)
Theorem clean_run_reports_only_the_iterator {I : Type} `{BatchDeleteIterator I}
    (d : BatchDelete) (iter iter' : I) (l : list BatchDeleteObject) (fuel : nat) :
  yields iter l iter' ->
  (length l < fuel)%nat ->
  (forall t i, exists r, Client d t i = CallOk r /\ out_Errors r = []) ->
  Forall quiet l ->
  exists ret t,
    Delete fuel d iter [] = Returned (ret, t) /\
    errorsOf ret = iterError (Err iter') /\
    (Err iter' = None -> ret = None) /\
    (forall e, Err iter' = Some e ->
               ret = Some (NewBatchError "BatchedDeleteIncomplete"
                             "some objects have failed to be deleted."
                             [newError (Some e) None None])).
Proof.
  intros Hy Hf Hok Hq.
  rewrite (Delete_yields d [] iter iter' l fuel Hy Hf).
  assert (HF : forall t i, callErrors i (Client d t i) = (fun _ => []) i).
  { intros t i. destruct (Hok t i) as (r & -> & Hr). simpl. now rewrite Hr. }
  destruct (DeleteList_errs_quiet d _ HF l (Err iter') Hq) as (closed & last & E & _).
  rewrite !flat_map_nothing, app_nil_r in E. cbn [app] in E.
  exists (fst (DeleteList d [] l (Err iter'))), (snd (DeleteList d [] l (Err iter'))).
  split; [now rewrite <- surjective_pairing|].
  rewrite E. split; [apply errorsOf_resultOf|].
  split; [now intros -> | now intros e ->].
Qed.

(** The listing that fails after one page of three keys, with a client that
    always succeeds: the three keys are sent and the listing's error is the
    only one returned. *)
Lemma clean_run_example :
  exists t,
    Delete 4 (mkBatchDelete okClient 2) brokenListing [] =
      Returned (Some (NewBatchError "BatchedDeleteIncomplete"
                        "some objects have failed to be deleted."
                        [newError (Some (ErrOpaque "listing failed")) None None]),
                t) /\
    callSizes t = [2; 1]%nat.
Proof.
  destruct (clean_run_reports_only_the_iterator (mkBatchDelete okClient 2)
              brokenListing
              (mkDeleteListIterator (Some "A") (mkPaginator []) []
                 (Some (ErrOpaque "listing failed")))
              [plain "A" "k1"; plain "A" "k2"; plain "A" "k3"] 4)
    as (ret & t & E & _ & _ & Hret).
  - repeat (eapply yields_more; [reflexivity | reflexivity |]).
    apply yields_stop. reflexivity.
  - simpl. lia.
  - intros t i. exists (mkDeleteObjectsOutput []). split; reflexivity.
  - repeat constructor; intros hook t Hh; discriminate.
  - exists t. rewrite (Hret (ErrOpaque "listing failed") eq_refl) in E.
    split; [exact E|].
    vm_compute in E. injection E as <-. reflexivity.
Defined.

Lemma failed_groups_errors (e : error) (gs : list (list BatchDeleteObject)) :
  Forall (fun g => forall x, In x g -> hasParity (groupInput g) x = true) gs ->
  flat_map
    (fun i => map (fun oi => newError (Some e) (in_Bucket i) (oi_Key oi))
                  (Delete_Objects i))
    (map groupInput gs) =
  map (candidateError e) (concat gs).
Proof.
  induction 1 as [|g gs Hg _ IH]; simpl; [reflexivity|].
  rewrite IH, map_app, groupInput_objects, map_map. f_equal.
  apply map_ext_in. intros o Ho. unfold candidateError.
  apply Hg, hasParity_true in Ho. destruct Ho as (-> & _). reflexivity.
Qed.

(** X7.  When every call fails with the error [e] and no hook fails,
    [Delete] still goes through all the candidates: its errors are one per
    yielded candidate, in the order yielded, each with the candidate's own
    bucket and key and with [e].  The iterator's error, if there is one,
    stands between the errors of the batches closed in the loop and those of
    the last batch: the candidates [l2] after it are exactly those of the
    batch still open when the loop ends, and the errors before it are
    exactly those the loop has collected. *)
Theorem failing_client_marks_every_candidate {I : Type} `{BatchDeleteIterator I}
    (d : BatchDelete) (iter iter' : I) (l : list BatchDeleteObject) (fuel : nat)
    (e : error) :
  yields iter l iter' ->
  (length l < fuel)%nat ->
  (forall t i, Client d t i = CallErr e) ->
  Forall quiet l ->
  exists ret t l1 l2,
    Delete fuel d iter [] = Returned (ret, t) /\
    l = l1 ++ l2 /\
    l2 = objects (fold_left (loopBody d []) l initialState) /\
    errs (fold_left (loopBody d []) l initialState) =
      map (fun o => newError (Some e) (Bucket (Object o)) (Key (Object o))) l1 /\
    errorsOf ret =
      map (fun o => newError (Some e) (Bucket (Object o)) (Key (Object o))) l1 ++
      iterError (Err iter') ++
      map (fun o => newError (Some e) (Bucket (Object o)) (Key (Object o))) l2 /\
    (Err iter' = None ->
     errorsOf ret =
       map (fun o => newError (Some e) (Bucket (Object o)) (Key (Object o))) l).
Proof.
  intros Hy Hf Hfail Hq.
  rewrite (Delete_yields d [] iter iter' l fuel Hy Hf).
  assert (HF : forall t i,
             callErrors i (Client d t i) =
             (fun i => map (fun oi => newError (Some e) (in_Bucket i) (oi_Key oi))
                           (Delete_Objects i)) i).
  { intros t i. now rewrite Hfail. }
  destruct (DeleteList_errs_quiet d _ HF l (Err iter') Hq)
    as (closed & last & E & Hb & Hlast & Hloop).
  pose proof (batchesFrom_parity (BatchSize d) l [] ltac:(intros x [])) as Hpar.
  rewrite Hb in Hpar. apply Forall_app in Hpar. destruct Hpar as (Hp1 & Hp2).
  rewrite (failed_groups_errors e closed Hp1),
          (failed_groups_errors e last Hp2) in E.
  rewrite (failed_groups_errors e closed Hp1) in Hloop.
  assert (Hl2 : concat last = objects (fold_left (loopBody d []) l initialState)).
  { rewrite Hlast, batchesFrom_concat. apply app_nil_r. }
  assert (Hl : l = concat closed ++ concat last).
  { rewrite <- concat_app, <- Hb. symmetry. apply batchesFrom_concat. }
  exists (fst (DeleteList d [] l (Err iter'))), (snd (DeleteList d [] l (Err iter'))),
         (concat closed), (concat last).
  split; [now rewrite <- surjective_pairing|]. split; [exact Hl|].
  split; [exact Hl2|]. split; [exact Hloop|].
  rewrite E, errorsOf_resultOf. split; [reflexivity|].
  intros ->. cbn [iterError app]. now rewrite <- map_app, <- Hl.
Qed.

(** The listing that fails after one page of three keys, batch size 2, and a
    client that always times out: the errors of the batch {k1,k2} closed in
    the loop, then the listing's error, then the error of the last batch
    {k3}. *)
Lemma failing_client_example :
  exists ret t,
    Delete 4 (mkBatchDelete (failingClient (ErrOpaque "timeout")) 2)
           brokenListing [] = Returned (ret, t) /\
    errorsOf ret =
      [newError (Some (ErrOpaque "timeout")) (Some "A") (Some "k1");
       newError (Some (ErrOpaque "timeout")) (Some "A") (Some "k2");
       newError (Some (ErrOpaque "listing failed")) None None;
       newError (Some (ErrOpaque "timeout")) (Some "A") (Some "k3")].
Proof.
  destruct (failing_client_marks_every_candidate
              (mkBatchDelete (failingClient (ErrOpaque "timeout")) 2)
              brokenListing
              (mkDeleteListIterator (Some "A") (mkPaginator []) []
                 (Some (ErrOpaque "listing failed")))
              [plain "A" "k1"; plain "A" "k2"; plain "A" "k3"] 4
              (ErrOpaque "timeout"))
    as (ret & t & l1 & l2 & E & Hl & Hl2 & Hloop & Herrs & _).
  - repeat (eapply yields_more; [reflexivity | reflexivity |]).
    apply yields_stop. reflexivity.
  - simpl. lia.
  - reflexivity.
  - repeat constructor; intros hook t Hh; discriminate.
  - exists ret, t. split; [exact E|].
    rewrite Herrs. vm_compute in Hl2. subst l2.
    destruct l1 as [|a [|b [|c l1]]]; try discriminate.
    cbn [app] in Hl. injection Hl as <- <-. reflexivity.
Defined.

(** ** The static iterator *)



(** X9.  The static iterator is single-pass: once it has been driven to the
    end, a further [Delete] over the same iterator finds nothing, issues no
    call and returns nil, whatever the client and the options. *)
Theorem exhausted_static_iterator_yields_nothing (l : list BatchDeleteObject) :
  (Z.of_nat (length l) + 1 < 2 ^ 63)%Z ->
  yields (mkDeleteObjectsIterator l 0 false) l
         (mkDeleteObjectsIterator l (Z.of_nat (length l)) true) /\
  forall d opts,
    Delete 1 d (mkDeleteObjectsIterator l (Z.of_nat (length l)) true) opts =
      Returned (None, []).
Proof.
  intros Hlen.
  split; [apply DeleteObjectsIterator_yields; lia|].
  intros d opts. unfold Delete. cbn [DeleteLoop Next DeleteObjectsIterator_iter].
  unfold DeleteObjectsIterator_Next. cbn [inc index Objects].
  rewrite int_wrap_small by lia.
  replace (Z.of_nat (length l) + 1 <? Z.of_nat (length l))%Z with false
    by (symmetry; apply Z.ltb_ge; lia).
  reflexivity.
Qed.

(** A used iterator over two candidates, given to [Delete] again. *)
Lemma exhausted_static_iterator_example :
  Delete 1 (mkBatchDelete (failingClient (ErrOpaque "timeout")) 1)
         (mkDeleteObjectsIterator [plain "A" "k1"; plain "A" "k2"] 2 true) [] =
    Returned (None, []).
Proof.
  destruct (exhausted_static_iterator_yields_nothing [plain "A" "k1"; plain "A" "k2"])
    as (_ & Hd).
  - reflexivity.
  - exact (Hd (mkBatchDelete (failingClient (ErrOpaque "timeout")) 1) []).
Defined.

(** ** The paginated iterator, from its constructor *)

(** X10.  A fresh [DeleteListIterator] (built without options) yields one
    candidate per listed object, page after page and in order, for the
    leading pages that have contents; each candidate has the iterator's
    bucket, the object's key, no version and no hook.  It stops at the first
    answer of the listing that is missing, failed or empty, and its error
    afterwards is the fetch error in the failed case and nil in the other
    two. *)
Theorem paginated_iterator_yields_leading_pages (bucket : option string)
    (pages : list ListObjectsV2Output)
    (tail : list (ListObjectsV2Output + error)) :
  Forall (fun p => Contents p <> []) pages ->
  stopsAt tail ->
  yields
    (NewDeleteListIterator bucket (mkPaginator (map inl pages ++ tail)) [])
    (map (fun o => mkBatchDeleteObject
                     (mkDeleteObjectInput bucket (obj_Key o) None None "") None)
         (flat_map Contents pages))
    (mkDeleteListIterator bucket (mkPaginator (tl tail)) []
       (match tail with
        | inr e :: _ => Some e
        | _ => None
        end)).
Proof.
  intros Hpages Hstop.
  exact (DeleteListIterator_yields bucket None tail Hstop pages Hpages []).
Qed.

(** Two pages with contents, then a failed fetch. *)
Lemma paginated_iterator_example :
  yields
    (NewDeleteListIterator (Some "A")
       (mkPaginator
          [inl (mkListObjectsV2Output [mkS3Object (Some "k1"); mkS3Object (Some "k2")]);
           inl (mkListObjectsV2Output [mkS3Object (Some "k3")]);
           inr (ErrOpaque "listing failed")]) [])
    [plain "A" "k1"; plain "A" "k2"; plain "A" "k3"]
    (mkDeleteListIterator (Some "A") (mkPaginator []) []
       (Some (ErrOpaque "listing failed"))).
Proof.
  apply (paginated_iterator_yields_leading_pages (Some "A")
           [mkListObjectsV2Output [mkS3Object (Some "k1"); mkS3Object (Some "k2")];
            mkListObjectsV2Output [mkS3Object (Some "k3")]]
           [inr (ErrOpaque "listing failed")]).
  - repeat constructor; discriminate.
  - exact I.
Defined.

Lemma listed_candidates_uniform (bucket : option string) (os : list S3Object) :
  uniform (map (listedCandidate bucket) os).
Proof.
  intros o1 o2 H1 H2.
  apply in_map_iff in H1, H2.
  destruct H1 as (x1 & <- & _), H2 as (x2 & <- & _). repeat split.
Qed.

(** X11.  Page boundaries do not show in the batches: over a listing whose
    pages all have contents and whose fetches all succeed, with [n] objects
    in all and a batch size [b] of at least 1, [Delete] sends n/b calls of
    [b] objects and then one of [n mod b] if that is not zero, whatever the
    sizes of the pages; the calls carry the listed keys in order. *)
Theorem batches_ignore_page_boundaries (d : BatchDelete) (bucket : option string)
    (pages : list ListObjectsV2Output) (fuel : nat) :
  Forall (fun p => Contents p <> []) pages ->
  (length (flat_map Contents pages) < fuel)%nat ->
  (1 <= BatchSize d)%Z ->
  exists ret t,
    Delete fuel d (NewDeleteListIterator bucket (mkPaginator (map inl pages)) []) [] =
      Returned (ret, t) /\
    callSizes t =
      repeat (Z.to_nat (BatchSize d))
             (length (flat_map Contents pages) / Z.to_nat (BatchSize d)) ++
      (if (length (flat_map Contents pages) mod Z.to_nat (BatchSize d) =? 0)%nat
       then []
       else [(length (flat_map Contents pages) mod Z.to_nat (BatchSize d))%nat]) /\
    flat_map Delete_Objects (calls t) =
      map (fun o => mkObjectIdentifier (obj_Key o) None) (flat_map Contents pages).
Proof.
  intros Hpages Hf HB.
  pose proof (DeleteListIterator_yields bucket None [] I pages Hpages []) as Hy.
  rewrite app_nil_r in Hy. cbn [tl app] in Hy.
  set (l := map (listedCandidate bucket) (flat_map Contents pages)) in *.
  assert (Hn : length l = length (flat_map Contents pages))
    by (subst l; apply length_map).
  unfold NewDeleteListIterator. cbn [fold_left].
  rewrite (Delete_yields d [] _ _ l fuel Hy) by lia.
  destruct (DeleteList_spec d l (Err (mkDeleteListIterator bucket (mkPaginator [])
                                        [] (errAfter None []))))
    as (t1 & t2 & last & -> & Hc & _).
  eexists _, _. split; [reflexivity|]. split.
  - unfold callSizes. rewrite Hc, map_map.
    rewrite (map_ext _ (@length _) groupInput_length).
    replace (BatchSize d) with (Z.of_nat (Z.to_nat (BatchSize d))) at 1 by lia.
    rewrite batchesFrom_uniform;
      [| lia | simpl; lia | apply listed_candidates_uniform].
    unfold chunkSizes. cbn [length Nat.add]. now rewrite Hn.
  - rewrite Hc, groups_identifiers, batchesFrom_concat. cbn [app].
    subst l. now rewrite map_map.
Qed.

(** Pages of two and of three keys, batch size 4: calls of four and of one. *)
Lemma page_boundaries_example :
  exists ret t,
    Delete 6 (mkBatchDelete okClient 4)
           (NewDeleteListIterator (Some "A") twoPages []) [] = Returned (ret, t) /\
    callSizes t = [4; 1]%nat.
Proof.
  destruct (batches_ignore_page_boundaries (mkBatchDelete okClient 4) (Some "A")
              [mkListObjectsV2Output [mkS3Object (Some "k1"); mkS3Object (Some "k2")];
               mkListObjectsV2Output
                 [mkS3Object (Some "k3"); mkS3Object (Some "k4"); mkS3Object (Some "k5")]]
              6)
    as (ret & t & E & Hs & _).
  - repeat constructor; discriminate.
  - simpl. lia.
  - simpl. lia.
  - exists ret, t. split; [exact E | exact Hs].
Defined.

(** ** A request option that changes the bucket *)

Section BucketOption.

Variable d : BatchDelete.
Variable x : string.

Lemma withBucket_no_parity (i : DeleteObjectsInput) (o : BatchDeleteObject) :
  Bucket (Object o) <> Some x -> hasParity (withBucket x i) o = false.
Proof.
  intros Hne. destruct (hasParity (withBucket x i) o) eqn:Hp; [|reflexivity].
  apply hasParity_true in Hp. destruct Hp as (Hb & _). simpl in Hb. congruence.
Qed.

Lemma loopBody_withBucket (st : DeleteState) (o : BatchDeleteObject) :
  Bucket (Object o) <> Some x ->
  exists evs,
    trace (loopBody d [withBucket x] st o) = trace st ++ evs /\
    calls evs =
      [withBucket x (match input st with
                     | None => initDeleteObjectsInput (Object o)
                     | Some i => i
                     end)] /\
    input (loopBody d [withBucket x] st o) = Some (seeded x o) /\
    objects (loopBody d [withBucket x] st o) = [o].
Proof.
  intros Hne. unfold loopBody. cbn [applyOpts fold_left].
  rewrite withBucket_no_parity by exact Hne.
  cbn [negb]. rewrite orb_true_r.
  destruct (deleteBatch_events d
              (withBucket x (match input st with
                             | None => initDeleteObjectsInput (Object o)
                             | Some i => i
                             end))
              (objects st) (trace st)) as (evs & -> & Hc & _).
  exists evs. cbn [trace input objects]. auto.
Qed.

Lemma run_withBucket (e : option error) (l : list BatchDeleteObject) :
  forall st o0,
    input st = Some (seeded x o0) ->
    (forall o, In o l -> Bucket (Object o) <> Some x) ->
    calls (snd (afterLoop d (fold_left (loopBody d [withBucket x]) l st) e)) =
    calls (trace st) ++ map (seeded x) (o0 :: l).
Proof.
  induction l as [|o l IH]; intros st o0 Hin Hne.
  - cbn [fold_left map]. unfold afterLoop. rewrite Hin.
    change (0 <? length (Delete_Objects (seeded x o0)))%nat with true.
    destruct (deleteBatch_events d (seeded x o0) (objects st) (trace st))
      as (evs & -> & Hc & _).
    cbv beta iota. cbn [snd]. now rewrite calls_app, Hc.
  - cbn [fold_left].
    destruct (loopBody_withBucket st o (Hne o (or_introl eq_refl)))
      as (evs & Ht & Hc & Hi & _).
    rewrite (IH _ o Hi) by (intros o' Ho'; apply Hne; now right).
    rewrite Ht, calls_app, Hc, Hin, <- app_assoc. reflexivity.
Qed.

End BucketOption.

(** X12.  Request options are applied before parity is tested, on every
    iteration.  So with an option that sets the request's bucket to [x],
    when no candidate is of bucket [x], no candidate ever has parity: for
    any batch size, [Delete] first sends a call that carries no object, and
    then one call per candidate, each against the bucket [x] and carrying
    that candidate alone. *)
Theorem bucket_option_defeats_batching {I : Type} `{BatchDeleteIterator I}
    (d : BatchDelete) (x : string) (iter iter' : I)
    (o1 : BatchDeleteObject) (l : list BatchDeleteObject) (fuel : nat) :
  yields iter (o1 :: l) iter' ->
  (length (o1 :: l) < fuel)%nat ->
  (forall o, In o (o1 :: l) -> Bucket (Object o) <> Some x) ->
  exists ret t,
    Delete fuel d iter [withBucket x] = Returned (ret, t) /\
    calls t =
      mkDeleteObjectsInput (Some x) (MFA (Object o1)) (RequestPayer (Object o1)) [] ::
      map (fun o =>
             mkDeleteObjectsInput (Some x) (MFA (Object o)) (RequestPayer (Object o))
               [mkObjectIdentifier (Key (Object o)) (VersionId (Object o))])
          (o1 :: l).
Proof.
  intros Hy Hf Hne.
  rewrite (Delete_yields d [withBucket x] iter iter' _ fuel Hy Hf).
  exists (fst (DeleteList d [withBucket x] (o1 :: l) (Err iter'))),
         (snd (DeleteList d [withBucket x] (o1 :: l) (Err iter'))).
  split; [now rewrite <- surjective_pairing|].
  unfold DeleteList. cbn [fold_left].
  destruct (loopBody_withBucket d x initialState o1 (Hne o1 (or_introl eq_refl)))
    as (evs & Ht & Hc & Hi & _).
  rewrite (run_withBucket d x (Err iter') l _ o1 Hi)
    by (intros o Ho; apply Hne; now right).
  rewrite Ht, calls_app, Hc. reflexivity.
Qed.

(** Two candidates of bucket A, the option redirecting to bucket X, batch
    size 1000: an empty call, then one call per candidate, all to X. *)
Lemma bucket_option_example :
  exists ret t,
    Delete 3 (mkBatchDelete okClient 1000)
           (staticIterator [plain "A" "k1"; plain "A" "k2"]) [withBucket "X"] =
      Returned (ret, t) /\
    calls t =
      [mkDeleteObjectsInput (Some "X") None "" [];
       mkDeleteObjectsInput (Some "X") None "" [mkObjectIdentifier (Some "k1") None];
       mkDeleteObjectsInput (Some "X") None "" [mkObjectIdentifier (Some "k2") None]].
Proof.
  destruct (bucket_option_defeats_batching (mkBatchDelete okClient 1000) "X"
              (staticIterator [plain "A" "k1"; plain "A" "k2"])
              (mkDeleteObjectsIterator [plain "A" "k1"; plain "A" "k2"] 2 true)
              (plain "A" "k1") [plain "A" "k2"] 3)
    as (ret & t & E & Hc).
  - apply (staticIterator_yields [plain "A" "k1"; plain "A" "k2"]). reflexivity.
  - simpl. lia.
  - intros o [<- | [<- | []]]; discriminate.
  - exists ret, t. split; [exact E | exact Hc].
Defined.

(** ** The message of a list of errors *)

Section MessageJoin.

Variable quote : string -> string.
Variable error_Error : error -> string.

Lemma Errors_Error_from_spec (errs : list Error) :
  forall i n buf,
    n = (i + length errs)%nat ->
    Errors_Error_from quote error_Error i n errs buf =
    (buf ++ String.concat newline (map (Error_Error quote error_Error) errs))%string.
Proof.
  induction errs as [|err rest IH]; intros i n buf Hn.
  - simpl. now rewrite string_app_nil_r.
  - cbn [Errors_Error_from map].
    rewrite (IH (S i) n) by (simpl in Hn; lia).
    destruct rest as [|err' rest'].
    + replace (i + 1 <? n)%nat with false
        by (symmetry; apply Nat.ltb_ge; simpl in Hn; lia).
      simpl. now rewrite string_app_nil_r.
    + replace (i + 1 <? n)%nat with true
        by (symmetry; apply Nat.ltb_lt; simpl in Hn; lia).
      cbn [map String.concat]. now rewrite !string_app_assoc.
Qed.

End MessageJoin.

(** X13.  [Errors.Error] is the join of the members' messages with a line
    feed: no separator before the first message, none after the last, and
    the empty string for no error at all; hence the message of two non-empty
    lists put together is the two messages with one line feed between. *)
Theorem Errors_Error_joins_with_line_feeds (quote : string -> string)
    (error_Error : error -> string) (errs errs' : list Error) :
  Errors_Error quote error_Error errs =
    String.concat newline (map (Error_Error quote error_Error) errs) /\
  Errors_Error quote error_Error [] = "" /\
  (errs <> [] -> errs' <> [] ->
   Errors_Error quote error_Error (errs ++ errs') =
   (Errors_Error quote error_Error errs ++ newline ++
    Errors_Error quote error_Error errs')%string).
Proof.
  assert (Hjoin : forall es,
             Errors_Error quote error_Error es =
             String.concat newline (map (Error_Error quote error_Error) es)).
  { intros es. unfold Errors_Error.
    now rewrite (Errors_Error_from_spec quote error_Error es 0 (length es) ""). }
  split; [apply Hjoin|]. split; [reflexivity|].
  intros Hne Hne'. rewrite !Hjoin, map_app.
  induction errs as [|err rest IH]; [congruence|].
  destruct errs' as [|e' r']; [congruence|].
  destruct rest as [|err2 rest2].
  - reflexivity.
  - change (String.concat newline
              (map (Error_Error quote error_Error) ((err :: err2 :: rest2)) ++
               map (Error_Error quote error_Error) (e' :: r')))
      with (Error_Error quote error_Error err ++ newline ++
            String.concat newline
              (map (Error_Error quote error_Error) (err2 :: rest2) ++
               map (Error_Error quote error_Error) (e' :: r')))%string.
    rewrite IH by discriminate.
    change (String.concat newline
              (map (Error_Error quote error_Error) (err :: err2 :: rest2)))
      with (Error_Error quote error_Error err ++ newline ++
            String.concat newline
              (map (Error_Error quote error_Error) (err2 :: rest2)))%string.
    now rewrite !string_app_assoc.
Qed.

(** A list of two errors, with the quoting and the original errors' messages
    given by simple stand-ins. *)
Lemma Errors_Error_example :
  Errors_Error (fun s => s) (fun _ => "timeout")
    ([newError (Some (ErrOpaque "timeout")) (Some "A") (Some "k1")] ++
     [newError None None None]) =
  (Errors_Error (fun s => s) (fun _ => "timeout")
     [newError (Some (ErrOpaque "timeout")) (Some "A") (Some "k1")] ++
   newline ++
   Errors_Error (fun s => s) (fun _ => "timeout") [newError None None None])%string.
Proof.
  destruct (Errors_Error_joins_with_line_feeds (fun s => s) (fun _ => "timeout")
              [newError (Some (ErrOpaque "timeout")) (Some "A") (Some "k1")]
              [newError None None None])
    as (_ & _ & Happ).
  apply Happ; discriminate.
Defined.

(** ** What [Delete] can return *)

Lemma afterLoop_result (d : BatchDelete) (st : DeleteState) (e : option error) :
  exists es, fst (afterLoop d st e) = resultOf es.
Proof.
  unfold afterLoop.
  destruct (match input st with
            | Some i =>
                if (0 <? length (Delete_Objects i))%nat
                then
                  let '(err, t) := deleteBatch d i (objects st) (trace st) in
                  (match e with
                   | Some e0 => errs st ++ [newError (Some e0) None None]
                   | None => errs st
                   end ++ err, t)
                else
                  (match e with
                   | Some e0 => errs st ++ [newError (Some e0) None None]
                   | None => errs st
                   end, trace st)
            | None =>
                (match e with
                 | Some e0 => errs st ++ [newError (Some e0) None None]
                 | None => errs st
                 end, trace st)
            end) as [es t].
  exists es. cbn [fst]. apply resultOf_length.
Qed.

(** X14.  Whatever the client, the hooks and the request options, a non-nil
    result of [Delete] is never empty: it holds at least one [Error], its
    code is "BatchedDeleteIncomplete" and its message is "some objects have
    failed to be deleted.". *)
Theorem Delete_never_returns_an_empty_BatchError {I : Type} `{BatchDeleteIterator I}
    (d : BatchDelete) (iter iter' : I)
    (opts : list (DeleteObjectsInput -> DeleteObjectsInput))
    (l : list BatchDeleteObject) (fuel : nat) :
  yields iter l iter' ->
  (length l < fuel)%nat ->
  exists ret t,
    Delete fuel d iter opts = Returned (ret, t) /\
    forall b,
      ret = Some b ->
      Errors b <> [] /\
      BatchError_Code b = "BatchedDeleteIncomplete" /\
      BatchError_Message b = "some objects have failed to be deleted.".
Proof.
  intros Hy Hf.
  rewrite (Delete_yields d opts iter iter' l fuel Hy Hf).
  exists (fst (DeleteList d opts l (Err iter'))), (snd (DeleteList d opts l (Err iter'))).
  split; [now rewrite <- surjective_pairing|].
  unfold DeleteList.
  destruct (afterLoop_result d (fold_left (loopBody d opts) l initialState) (Err iter'))
    as (es & ->).
  intros b Hb. destruct es as [|e0 es]; [discriminate|].
  injection Hb as <-. repeat split. discriminate.
Qed.

(** One candidate whose hook fails, with a bucket-changing option in use. *)
Lemma nonempty_BatchError_example :
  exists ret t,
    Delete 2 (mkBatchDelete okClient 1000)
           (staticIterator [hooked "A" "k1" (Some (ErrOpaque "hook failed"))])
           [withBucket "X"] = Returned (ret, t) /\
    ret = Some (NewBatchError "BatchedDeleteIncomplete"
                  "some objects have failed to be deleted."
                  [newError (Some (ErrOpaque "hook failed")) (Some "A") (Some "k1")]).
Proof.
  destruct (Delete_never_returns_an_empty_BatchError (mkBatchDelete okClient 1000)
              (staticIterator [hooked "A" "k1" (Some (ErrOpaque "hook failed"))])
              (mkDeleteObjectsIterator
                 [hooked "A" "k1" (Some (ErrOpaque "hook failed"))] 1 true)
              [withBucket "X"]
              [hooked "A" "k1" (Some (ErrOpaque "hook failed"))] 2)
    as (ret & t & E & _).
  - apply (staticIterator_yields
             [hooked "A" "k1" (Some (ErrOpaque "hook failed"))]).
    reflexivity.
  - simpl. lia.
  - exists ret, t. split; [exact E|].
    vm_compute in E. injection E as <- _. reflexivity.
Defined.

(** ** Invariants of the paginated iterator *)

Lemma DeleteListIterator_Next_keeps (iter : DeleteListIterator) :
  it_Bucket (fst (DeleteListIterator_Next iter)) = it_Bucket iter /\
  (it_err iter <> None -> it_err (fst (DeleteListIterator_Next iter)) <> None).
Proof.
  unfold DeleteListIterator_Next.
  destruct ((0 <? length (it_objects iter))%nat &&
            (0 <? length (if (0 <? length (it_objects iter))%nat
                          then tl (it_objects iter) else it_objects iter))%nat);
    [simpl; auto|].
  destruct (negb (HasMorePages (Paginator iter))); [simpl; auto|].
  destruct (NextPage (Paginator iter)) as [p [page|e]]; simpl; auto.
  split; [reflexivity | discriminate].
Qed.

(** X15.  From any state of a [DeleteListIterator], however it was built:
    every candidate it yields has the iterator's bucket, no version
    identifier, no MFA token, an empty request payer and no hook, so all of
    them have parity with each other; driving the iterator never changes its
    bucket and never clears an error it already holds. *)
Theorem paginated_iterator_invariants (iter iter' : DeleteListIterator)
    (l : list BatchDeleteObject) :
  yields iter l iter' ->
  Forall (fun o =>
            Bucket (Object o) = it_Bucket iter /\
            VersionId (Object o) = None /\
            MFA (Object o) = None /\
            RequestPayer (Object o) = "" /\
            After o = None) l /\
  uniform l /\
  it_Bucket iter' = it_Bucket iter /\
  (Err iter <> None -> Err iter' <> None).
Proof.
  intros Hy.
  assert (Hmain :
            Forall (fun o =>
                      Bucket (Object o) = it_Bucket iter /\
                      VersionId (Object o) = None /\
                      MFA (Object o) = None /\
                      RequestPayer (Object o) = "" /\
                      After o = None) l /\
            it_Bucket iter' = it_Bucket iter /\
            (Err iter <> None -> Err iter' <> None)).
  { induction Hy as [iter iter' Hn | iter iter1 o l iter' Hn Ho _ IH].
    - pose proof (DeleteListIterator_Next_keeps iter) as (Hb & He).
      cbn [Next DeleteListIterator_iter] in Hn. rewrite Hn in Hb, He.
      split; [constructor | split; [exact Hb | exact He]].
    - pose proof (DeleteListIterator_Next_keeps iter) as (Hb & He).
      cbn [Next DeleteListIterator_iter] in Hn. rewrite Hn in Hb, He.
      cbn [fst] in Hb, He. destruct IH as (Hall & Hb' & He').
      split; [|split; [congruence | auto]].
      constructor.
      + cbn [DeleteObject DeleteListIterator_iter] in Ho.
        unfold DeleteListIterator_DeleteObject in Ho.
        destruct (it_objects iter1); [discriminate|].
        injection Ho as <-. simpl. rewrite Hb. auto.
      + revert Hall. apply Forall_impl. intros a (Ha & Hrest).
        split; [congruence | exact Hrest]. }
  destruct Hmain as (Hall & Hb & He).
  split; [exact Hall|]. split; [|split; [exact Hb | exact He]].
  intros o1 o2 H1 H2. rewrite Forall_forall in Hall.
  destruct (Hall o1 H1) as (B1 & _ & M1 & R1 & _).
  destruct (Hall o2 H2) as (B2 & _ & M2 & R2 & _).
  unfold sameFlags. rewrite B1, B2, M1, M2, R1, R2. auto.
Qed.

(** The listing that fails after one page of three keys. *)
Lemma paginated_iterator_invariants_example :
  Forall (fun o => Bucket (Object o) = Some "A" /\ After o = None)
         [plain "A" "k1"; plain "A" "k2"; plain "A" "k3"] /\
  uniform [plain "A" "k1"; plain "A" "k2"; plain "A" "k3"].
Proof.
  destruct (paginated_iterator_invariants brokenListing
              (mkDeleteListIterator (Some "A") (mkPaginator []) []
                 (Some (ErrOpaque "listing failed")))
              [plain "A" "k1"; plain "A" "k2"; plain "A" "k3"])
    as (Hall & U & _).
  - repeat (eapply yields_more; [reflexivity | reflexivity |]).
    apply yields_stop. reflexivity.
  - split; [|exact U].
    revert Hall. apply Forall_impl. intros o (Hb & _ & _ & _ & Ha). auto.
Defined.
